(** * CCM (CutiContourMasking): the contoured-video pipeline

    A shallow embedding of [ContouredVideoProduction] (src/CCM.py) and the
    properties of the pipeline it implements: edge overlay per pixel,
    sequential writing of the composited frames, the skip policy for
    unreadable images, progress reporting and the handling of the video
    writer.

    Images are nested lists, as a numpy array of shape (H, W, 3) prints:
    a list of rows, each row a list of pixels, each pixel three channels
    (B, G, R).  Channel values are integers; an 8-bit image has all of them
    in [0, 255].  The calls into OpenCV, the file system and the console are
    effects: they are recorded, in order, in the trace of the world the
    function runs in. *)

From Stdlib Require Import String Ascii DecimalString.
From Stdlib Require Import ZArith Arith Bool Lia List.
Import ListNotations.

Local Open Scope string_scope.
Local Open Scope nat_scope.
Local Open Scope list_scope.

(** ** Arrays *)

Definition pixel : Type := Z * Z * Z.
Definition array2 (A : Type) : Type := list (list A).
Definition image : Type := array2 pixel.

(** [a.shape[:2]]: the number of rows and the length of a row. *)
Definition shape {A : Type} (a : array2 A) : nat * nat :=
  (length a, length (hd [] a)).

(** [a[r][c]], with [d] where the position does not exist. *)
Definition get {A : Type} (d : A) (a : array2 A) (r c : nat) : A :=
  nth c (nth r a []) d.

(** The array of shape (h, w) whose cell (r, c) is [f r c]. *)
Definition tabulate {A : Type} (h w : nat) (f : nat -> nat -> A) : array2 A :=
  map (fun r => map (fun c => f r c) (seq 0 w)) (seq 0 h).

Definition map3 {A B : Type} (f : A -> B) (p : A * A * A) : B * B * B :=
  let '(x, y, z) := p in (f x, f y, f z).

Definition zip3 {A B C D : Type} (f : A -> B -> C -> D)
    (p : A * A * A) (q : B * B * B) (s : C * C * C) : D * D * D :=
  let '(x1, y1, z1) := p in
  let '(x2, y2, z2) := q in
  let '(x3, y3, z3) := s in
  (f x1 x2 x3, f y1 y2 y3, f z1 z2 z3).

Definition black : pixel := (0, 0, 0)%Z.
Definition white : pixel := (255, 255, 255)%Z.

(** Every channel of every pixel fits in 8 bits. *)
Definition uint8 (v : Z) : Prop := (0 <= v < 256)%Z.
Definition uint8_pixel (p : pixel) : Prop :=
  let '(b, g, r) := p in uint8 b /\ uint8 g /\ uint8 r.
Definition uint8_image (a : image) : Prop :=
  Forall (Forall uint8_pixel) a.

(** ** The numpy and OpenCV array operations of the loop body *)

Inductive exn : Type :=
| IndexError (i : nat)   (* list index out of range *)
| ValueError.            (* operands could not be broadcast together *)

(** numpy's broadcasting of one axis: equal lengths, or one of them is 1. *)
Definition broadcast (m n : nat) : option nat :=
  if m =? n then Some m
  else if m =? 1 then Some n
  else if n =? 1 then Some m
  else None.

(** The index read in an axis of length [dim] for the output index [i]. *)
Definition bidx (dim i : nat) : nat := if dim =? 1 then 0 else i.

(** [cv2.cvtColor(edges, cv2.COLOR_GRAY2BGR)]: the grey value in all three
    channels. *)
Definition cvtColor_GRAY2BGR (edges : array2 Z) : image :=
  map (map (fun g => (g, g, g))) edges.

(** [a > 0], element by element. *)
Definition gt0 (a : image) : array2 (bool * bool * bool) :=
  map (map (map3 (fun v => (0 <? v)%Z))) a.

(** [np.where(cond, x, y)] for a condition of shape (Hc, Wc, 3), a triple
    [x] and an array [y] of shape (Hy, Wy, 3): the two leading axes are
    broadcast, the triple is repeated at every position. *)
Definition np_where (cond : array2 (bool * bool * bool)) (x : pixel)
    (y : image) : exn + image :=
  let '(hc, wc) := shape cond in
  let '(hy, wy) := shape y in
  match broadcast hc hy, broadcast wc wy with
  | Some h, Some w =>
      inr (tabulate h w (fun r c =>
             zip3 (fun (b : bool) (xv yv : Z) => if b then xv else yv)
                  (get (false, false, false) cond (bidx hc r) (bidx wc c))
                  x
                  (get black y (bidx hy r) (bidx wy c))))
  | _, _ => inl ValueError
  end.

(** [a.astype(np.uint8)]: every value reduced modulo 256. *)
Definition astype_uint8 (a : image) : image :=
  map (map (map3 (fun v => (v mod 256)%Z))) a.

(** Lines 106-109: the overlay of an edge map on the original image. *)
Definition overlay (original_image : image) (edges : array2 Z) : exn + image :=
  let colored_edges := cvtColor_GRAY2BGR edges in
  match np_where (gt0 colored_edges) white original_image with
  | inr a => inr (astype_uint8 a)
  | inl e => inl e
  end.

(** The edge map marks position (r, c): its value there is positive. *)
Definition edge_at (edges : array2 Z) (r c : nat) : bool :=
  (0 <? get 0%Z edges r c)%Z.

(** The overlay of an edge map on an image of the same shape, cell by cell. *)
Definition overlay_cell (original_image : image) (edges : array2 Z)
    (r c : nat) : pixel :=
  zip3 (fun (b : bool) (xv yv : Z) => if b then xv else yv)
       (edge_at edges r c, edge_at edges r c, edge_at edges r c)
       white
       (get black original_image r c).

(** ** The world the function runs in *)

(** The lines the function prints. *)
Inductive message : Type :=
| NoSegmentedFrames (name : string)
| FailedFirstFrame (name path : string)
| ErrorReading (name : string) (i : nat)
| VideoSaved (name path : string).

Definition str_of_nat (n : nat) : string :=
  NilEmpty.string_of_uint (Nat.to_uint n).

Definition render (m : message) : string :=
  match m with
  | NoSegmentedFrames name =>
      ("[" ++ name ++ "] No segmented frames available.")%string
  | FailedFirstFrame name path =>
      ("[" ++ name ++ "] Failed to read first frame: " ++ path)%string
  | ErrorReading name i =>
      ("[" ++ name ++ "] Error reading frame or mask at index "
           ++ str_of_nat i ++ ".")%string
  | VideoSaved name path =>
      ("[" ++ name ++ "] Video saved at: " ++ path)%string
  end.

(** What the function does to its surroundings, call by call. *)
Inductive event : Type :=
| EvMakedirs (dir : string)
| EvPrint (m : message)
| EvImread (path : string)
| EvVideoWriter (path : string) (fourcc : Z) (fps : Z) (frameSize : nat * nat)
| EvWrite (frame : image)
| EvProgress (n : nat)
| EvRelease
| EvDestroyAllWindows.

(** The paths that exist, and the calls made so far (oldest first). *)
Record world : Type := mkWorld {
  paths : list string;
  trace : list event
}.

(** A computation either returns or raises, and changes the world on the
    way; what was done before an exception stays done. *)
Definition M (A : Type) : Type := world -> (exn + A) * world.

Definition ret {A : Type} (a : A) : M A := fun w => (inr a, w).

Definition raise {A : Type} (e : exn) : M A := fun w => (inl e, w).

Definition bind {A B : Type} (m : M A) (k : A -> M B) : M B :=
  fun w =>
    match m w with
    | (inr a, w') => k a w'
    | (inl e, w') => (inl e, w')
    end.

Notation "x <- c1 ;; c2" := (bind c1 (fun x => c2))
  (at level 61, c1 at next level, right associativity).
Notation "c1 ;; c2" := (bind c1 (fun _ => c2))
  (at level 61, right associativity).

Definition emit (e : event) : M unit :=
  fun w => (inr tt, mkWorld (paths w) (trace w ++ [e])).

Definition os_path_exists (p : string) : M bool :=
  fun w => (inr (existsb (String.eqb p) (paths w)), w).

(** [posixpath.split(p)]: [p] cut after its last separator, [(p[:i], p[i:])]
    with [i = p.rfind('/') + 1]. *)
Fixpoint split_last_sep (p : string) : string * string :=
  match p with
  | EmptyString => (EmptyString, EmptyString)
  | String c rest =>
      let '(head, tail) := split_last_sep rest in
      match head with
      | EmptyString =>
          if Ascii.eqb c "/" then (String c EmptyString, tail)
          else (EmptyString, String c tail)
      | String _ _ => (String c head, tail)
      end
  end.

(** [s.rstrip('/')] *)
Fixpoint rstrip_sep (s : string) : string :=
  match s with
  | EmptyString => EmptyString
  | String c rest =>
      match rstrip_sep rest with
      | EmptyString =>
          if Ascii.eqb c "/" then EmptyString else String c EmptyString
      | String _ _ as r => String c r
      end
  end.

(** [posixpath.split]: the head loses its trailing separators unless it
    consists of separators only. *)
Definition posix_split (p : string) : string * string :=
  let '(head, tail) := split_last_sep p in
  (match rstrip_sep head with
   | EmptyString => head
   | String _ _ as stripped => stripped
   end, tail).

(** The directories [os.makedirs(name)] makes, outermost first, when
    [existing] are the paths that exist: the missing parents, found by
    splitting the name again and again, and then [name] itself (not for a
    name that ends in [/.] whose parent was missing).  The head is shorter
    than the name at every recursive call, so [String.length name] steps
    are enough ([makedirs_made_fuel]). *)
Definition makedirs_split (name : string) : string * string :=
  let '(head, tail) := posix_split name in
  if String.eqb tail EmptyString then posix_split head else (head, tail).

Fixpoint makedirs_made (fuel : nat) (existing : list string) (name : string)
    : list string :=
  let '(head, tail) := makedirs_split name in
  if (negb (String.eqb head EmptyString) && negb (String.eqb tail EmptyString)
      && negb (existsb (String.eqb head) existing))%bool then
    match fuel with
    | 0 => [name]
    | S fuel' =>
        let made := makedirs_made fuel' existing head in
        if String.eqb tail "." then made else made ++ [name]
    end
  else [name].

(** [os.makedirs(p)] for a name [p] that does not exist: [p] is made with
    every parent directory that is missing.  The empty name, which the
    system call refuses, is no name of a directory: what is stated about
    the directory is stated for a name that is not empty. *)
Definition os_makedirs (p : string) : M unit :=
  fun w =>
    (inr tt,
     mkWorld (paths w ++ makedirs_made (String.length p) (paths w) p)
             (trace w ++ [EvMakedirs p])).

Definition print (m : message) : M unit := emit (EvPrint m).

(** [l[i]]: out of range raises. *)
Definition index {A : Type} (l : list A) (i : nat) : M A :=
  match nth_error l i with
  | Some x => ret x
  | None => raise (IndexError i)
  end.

Definition lift {A : Type} (r : exn + A) : M A :=
  match r with
  | inr a => ret a
  | inl e => raise e
  end.

(** [for i in <indices>: body(i)] *)
Fixpoint for_each (indices : list nat) (body : nat -> M unit) : M unit :=
  match indices with
  | [] => ret tt
  | i :: rest => body i ;; for_each rest body
  end.

Definition for_range (n : nat) (body : nat -> M unit) : M unit :=
  for_each (seq 0 n) body.

(** [os.path.join(a, b)] as on POSIX. *)
Definition starts_with_sep (s : string) : bool :=
  match s with
  | String c _ => Ascii.eqb c "/"
  | EmptyString => false
  end.

Fixpoint ends_with_sep (s : string) : bool :=
  match s with
  | EmptyString => false
  | String c EmptyString => Ascii.eqb c "/"
  | String _ rest => ends_with_sep rest
  end.

Definition os_path_join (a b : string) : string :=
  if starts_with_sep b then b
  else if (String.eqb a EmptyString || ends_with_sep a)%bool then (a ++ b)%string
  else (a ++ "/" ++ b)%string.

(** [cv2.VideoWriter_fourcc(c1, c2, c3, c4)] *)
Definition VideoWriter_fourcc (c1 c2 c3 c4 : ascii) : Z :=
  let code (c : ascii) := Z.land (Z.of_nat (nat_of_ascii c)) 255 in
  (code c1 + Z.shiftl (code c2) 8 + Z.shiftl (code c3) 16
   + Z.shiftl (code c4) 24)%Z.

Definition video_writer_write (frame : image) : M unit := emit (EvWrite frame).
Definition video_writer_release : M unit := emit EvRelease.
Definition cv2_destroyAllWindows : M unit := emit EvDestroyAllWindows.

Section Pipeline.

(** [cv2.imread]: the decoded image, or [None] when the file cannot be
    read.  The images on disk do not change during a run. *)
Variable imread : string -> option image.

(** [cv2.Canny(image, threshold1, threshold2)]: the edge map of an image. *)
Variable Canny : image -> Z -> Z -> array2 Z.

(** Whether [cv2.VideoWriter(path, fourcc, fps, frameSize)] can open its
    container ([isOpened()]): OpenCV decides, from the codec, the rate and
    the frame size. *)
Variable writer_opens : string -> Z -> Z -> nat * nat -> bool.

(** [cv2.VideoWriter(path, fourcc, fps, frameSize)], for a rate that a
    double holds: the container file is on disk when the writer could open
    it; the constructor returns a writer either way. *)
Definition cv2_VideoWriter (path : string) (fourcc fps : Z)
    (frameSize : nat * nat) : M unit :=
  fun w =>
    (inr tt,
     mkWorld (paths w ++
                (if writer_opens path fourcc fps frameSize then [path]
                 else []))
             (trace w ++ [EvVideoWriter path fourcc fps frameSize])).

Definition cv2_imread (path : string) : M (option image) :=
  emit (EvImread path) ;; ret (imread path).

(** Lines 95-115: the body of the loop, for the index [i]. *)
Definition loop_body (output_video_name : string)
    (segmented_frames masks : list string) (progress_callback : bool)
    (low_threshold high_threshold : Z) (i : nat) : M unit :=
  frame_path <- index segmented_frames i ;;
  original_image <- cv2_imread frame_path ;;
  mask_path <- index masks i ;;
  mask <- cv2_imread mask_path ;;
  match original_image, mask with
  | Some original_image, Some mask =>
      let edges := Canny mask low_threshold high_threshold in
      contoured_image <- lift (overlay original_image edges) ;;
      video_writer_write contoured_image ;;
      if progress_callback then emit (EvProgress (i + 1)) else ret tt
  | _, _ =>
      print (ErrorReading output_video_name i)
  end.

(** [ContouredVideoProduction]; [progress_callback] is [true] when a
    callback is supplied, and each call of it is recorded with its
    argument. *)
Definition ContouredVideoProduction (output_video_name : string)
    (segmented_frames masks : list string) (fps : Z)
    (output_dir : option string) (progress_callback : bool) : M unit :=
  let output_video_dir :=
    match output_dir with
    | None => os_path_join "Videos" "Contoured Videos"
    | Some d => d
    end in
  present <- os_path_exists output_video_dir ;;
  (if negb present then os_makedirs output_video_dir else ret tt) ;;
  let output_video_prefix := "Contoured_" in
  let output_video_path :=
    os_path_join output_video_dir
      (output_video_prefix ++ output_video_name ++ ".mp4")%string in
  if length segmented_frames =? 0 then
    print (NoSegmentedFrames output_video_name)
  else
    first_path <- index segmented_frames 0 ;;
    frame <- cv2_imread first_path ;;
    match frame with
    | None => print (FailedFirstFrame output_video_name first_path)
    | Some frame =>
        let '(height, width) := shape frame in
        let fourcc := VideoWriter_fourcc "m" "p" "4" "v" in
        cv2_VideoWriter output_video_path fourcc fps (width, height) ;;
        let low_threshold := 1%Z in
        let high_threshold := 256%Z in
        for_range (length segmented_frames)
          (loop_body output_video_name segmented_frames masks
             progress_callback low_threshold high_threshold) ;;
        video_writer_release ;;
        cv2_destroyAllWindows ;;
        print (VideoSaved output_video_name output_video_path)
    end.

End Pipeline.

(** ** Reading a trace *)

(** The frames handed to the video writer, in order. *)
Definition written (tr : list event) : list image :=
  flat_map (fun e => match e with EvWrite f => [f] | _ => [] end) tr.

(** The values the progress callback received, in order. *)
Definition progress_values (tr : list event) : list nat :=
  flat_map (fun e => match e with EvProgress n => [n] | _ => [] end) tr.

(** The indices reported as unreadable and skipped, in order. *)
Definition skipped (tr : list event) : list nat :=
  flat_map (fun e => match e with
                     | EvPrint (ErrorReading _ i) => [i]
                     | _ => []
                     end) tr.

(** The locations given to [cv2.imread], in order. *)
Definition reads (tr : list event) : list string :=
  flat_map (fun e => match e with EvImread p => [p] | _ => [] end) tr.

(** The video writers opened: destination and frame size (width, height). *)
Definition writers (tr : list event) : list (string * (nat * nat)) :=
  flat_map (fun e => match e with
                     | EvVideoWriter p _ _ sz => [(p, sz)]
                     | _ => []
                     end) tr.

(** How often the video writer was released. *)
Definition releases (tr : list event) : nat :=
  length (flat_map (fun e => match e with EvRelease => [tt] | _ => [] end) tr).

(** The directories [os.makedirs] was called for. *)
Definition made_dirs (tr : list event) : list string :=
  flat_map (fun e => match e with EvMakedirs d => [d] | _ => [] end) tr.

Definition empty_world : world := mkWorld [] [].

(** ** A small set of files to run on *)

Definition frame2x2 : image :=
  [[(10, 20, 30); (40, 50, 60)]; [(70, 80, 90); (100, 110, 120)]]%Z.
Definition mask2x2 : image :=
  [[(0, 0, 0); (0, 0, 0)]; [(0, 0, 0); (0, 0, 0)]]%Z.
Definition frame1x1 : image := [[(1, 2, 3)]]%Z.
Definition mask1x1 : image := [[(0, 0, 0)]]%Z.

(** Files on disk: three 2x2 frames with their masks (the mask "m1.png" of
    [corrupt_disk] is unreadable), and a frame and mask of 1x1. *)
Definition disk (path : string) : option image :=
  if (String.eqb path "f0.jpg" || String.eqb path "f1.jpg"
      || String.eqb path "f2.jpg")%bool then Some frame2x2
  else if (String.eqb path "m0.png" || String.eqb path "m1.png"
      || String.eqb path "m2.png")%bool then Some mask2x2
  else if String.eqb path "small.jpg" then Some frame1x1
  else if String.eqb path "small.png" then Some mask1x1
  else None.

Definition corrupt_disk (path : string) : option image :=
  if String.eqb path "m1.png" then None else disk path.

(** The edge map of a mask without any gradient: nothing is marked.  All
    the masks above are uniform. *)
Definition flat_Canny (mask : image) (low high : Z) : array2 Z :=
  map (map (fun _ => 0%Z)) mask.

(** A video writer that opens for every positive frame rate. *)
Definition demo_writer_opens (path : string) (fourcc fps : Z)
    (frameSize : nat * nat) : bool :=
  (0 <? fps)%Z.

(** ** The loop, iteration by iteration *)

Definition outcome (r : option exn) : exn + unit :=
  match r with
  | None => inr tt
  | Some e => inl e
  end.

Definition output_dir_of (output_dir : option string) : string :=
  match output_dir with
  | None => os_path_join "Videos" "Contoured Videos"
  | Some d => d
  end.

Definition output_path_of (output_dir : option string) (name : string)
    : string :=
  os_path_join (output_dir_of output_dir)
    ("Contoured_" ++ name ++ ".mp4")%string.

(** The calls that end a run whose loop came to its end. *)
Definition epilogue (name path : string) (r : option exn) : list event :=
  match r with
  | None => [EvRelease; EvDestroyAllWindows; EvPrint (VideoSaved name path)]
  | Some _ => []
  end.

(** The world once the output directory has been seen to. *)
Definition after_makedirs (dir : string) (w : world) : world :=
  if existsb (String.eqb dir) (paths w) then w
  else mkWorld (paths w ++ makedirs_made (String.length dir) (paths w) dir)
               (trace w ++ [EvMakedirs dir]).

Section Iterations.

Variable imread : string -> option image.
Variable Canny : image -> Z -> Z -> array2 Z.
Variable output_video_name : string.
Variables segmented_frames masks : list string.
Variable progress_callback : bool.
Variables low_threshold high_threshold : Z.

(** Both images of the pair [i] can be read. *)
Definition decodable (i : nat) : bool :=
  match nth_error segmented_frames i, nth_error masks i with
  | Some pf, Some pm =>
      match imread pf, imread pm with
      | Some _, Some _ => true
      | _, _ => false
      end
  | _, _ => false
  end.

(** The frame composed from the pair [i], when there is one. *)
Definition contoured (i : nat) : option image :=
  match nth_error segmented_frames i, nth_error masks i with
  | Some pf, Some pm =>
      match imread pf, imread pm with
      | Some f, Some m =>
          match overlay f (Canny m low_threshold high_threshold) with
          | inr img => Some img
          | inl _ => None
          end
      | _, _ => None
      end
  | _, _ => None
  end.

(** What the iteration [i] raises, if anything, and the calls it makes. *)
Definition pair_result (i : nat) : option exn * list event :=
  match nth_error segmented_frames i with
  | None => (Some (IndexError i), [])
  | Some pf =>
      match nth_error masks i with
      | None => (Some (IndexError i), [EvImread pf])
      | Some pm =>
          match imread pf, imread pm with
          | Some f, Some m =>
              match overlay f (Canny m low_threshold high_threshold) with
              | inr img =>
                  (None,
                   [EvImread pf; EvImread pm; EvWrite img]
                   ++ (if progress_callback then [EvProgress (i + 1)] else []))
              | inl e => (Some e, [EvImread pf; EvImread pm])
              end
          | _, _ =>
              (None,
               [EvImread pf; EvImread pm;
                EvPrint (ErrorReading output_video_name i)])
          end
      end
  end.

(** The same for a run of iterations: it stops at the first exception. *)
Fixpoint loop_result (indices : list nat) : option exn * list event :=
  match indices with
  | [] => (None, [])
  | i :: rest =>
      match pair_result i with
      | (Some e, evs) => (Some e, evs)
      | (None, evs) =>
          let '(r, evs') := loop_result rest in (r, evs ++ evs')
      end
  end.

End Iterations.

(** Every pair that can be read has a mask of the width and height of its
    frame. *)
Definition masks_fit (imread : string -> option image)
    (segmented_frames masks : list string) : Prop :=
  forall i pf pm f m,
    nth_error segmented_frames i = Some pf ->
    nth_error masks i = Some pm ->
    imread pf = Some f -> imread pm = Some m ->
    shape m = shape f.

(** Every pair below [n] can be read. *)
Definition all_decodable (imread : string -> option image)
    (segmented_frames masks : list string) (n : nat) : Prop :=
  forall i, i < n -> decodable imread segmented_frames masks i = true.


(** Every pair can be read, and all its images have the shape [s]. *)
Definition uniform (imread : string -> option image)
    (segmented_frames masks : list string) (s : nat * nat) : Prop :=
  forall i pf pm,
    nth_error segmented_frames i = Some pf ->
    nth_error masks i = Some pm ->
    exists f m, imread pf = Some f /\ imread pm = Some m /\
                shape f = s /\ shape m = s.

Definition olist {A : Type} (o : option A) : list A :=
  match o with
  | Some a => [a]
  | None => []
  end.

(** The two locations of the pair [i], when the pair exists. *)
Definition pair_paths (segmented_frames masks : list string) (i : nat)
    : list string :=
  match nth_error segmented_frames i, nth_error masks i with
  | Some pf, Some pm => [pf; pm]
  | _, _ => []
  end.
(** A 2x2 frame with one pixel already white, and an edge map marking one
    other position. *)
Definition demo_frame : image :=
  [[(10, 20, 30); (255, 255, 255)]; [(0, 0, 0); (7, 8, 9)]]%Z.
Definition demo_edges : array2 Z := [[0; 0]; [255; 0]]%Z.


(** Three frames and their three masks. *)
Definition demo_frames : list string := ["f0.jpg"; "f1.jpg"; "f2.jpg"].
Definition demo_masks : list string := ["m0.png"; "m1.png"; "m2.png"].

(** A second pair of another size between two pairs of 2x2. *)
Definition mixed_frames : list string := ["f0.jpg"; "small.jpg"; "f2.jpg"].
Definition mixed_masks : list string := ["m0.png"; "small.png"; "m2.png"].

(** ** Further notions *)

(** All the rows of an array have the length the shape gives. *)
Definition rectangular {A : Type} (a : array2 A) : Prop :=
  Forall (fun row => length row = snd (shape a)) a.

(** numpy can broadcast the two leading axes of the shapes. *)
Definition broadcastable (s1 s2 : nat * nat) : bool :=
  match broadcast (fst s1) (fst s2), broadcast (snd s1) (snd s2) with
  | Some _, Some _ => true
  | _, _ => false
  end.

From Stdlib Require Import Sorted.
From Stdlib Require Import Permutation.

(** The videos reported as saved: name and path of each "Video saved at"
    line. *)
Definition saved (tr : list event) : list (string * string) :=
  flat_map (fun e => match e with
                     | EvPrint (VideoSaved name path) => [(name, path)]
                     | _ => []
                     end) tr.

(** ** The window: [CCMGUI] *)

(** What the methods below read and change: the two selected paths, the
    workspace directory, the text of the FPS entry, the two labels, the
    progress bar, the messages inserted in the log (each is followed by a
    newline) and the warning boxes shown (title and message). *)
Record CCMGUI : Type := mkGUI {
  input_video_path : string;
  output_video_dir : string;
  cutie_path : string;
  fps_entry : string;
  input_video_label : string;
  output_dir_label : string;
  progress_maximum : nat;
  progress_value : nat;
  log_text : list string;
  warnings : list (string * string)
}.

(** [CCMGUI.log] *)
Definition log (g : CCMGUI) (message : string) : CCMGUI :=
  mkGUI (input_video_path g) (output_video_dir g) (cutie_path g)
        (fps_entry g) (input_video_label g) (output_dir_label g)
        (progress_maximum g) (progress_value g)
        (log_text g ++ [message]) (warnings g).

(** [messagebox.showwarning(title, message)] *)
Definition showwarning (title message : string) (g : CCMGUI) : CCMGUI :=
  mkGUI (input_video_path g) (output_video_dir g) (cutie_path g)
        (fps_entry g) (input_video_label g) (output_dir_label g)
        (progress_maximum g) (progress_value g)
        (log_text g) (warnings g ++ [(title, message)]).

(** [CCMGUI.update_progress] *)
Definition update_progress (g : CCMGUI) (value : nat) : CCMGUI :=
  mkGUI (input_video_path g) (output_video_dir g) (cutie_path g)
        (fps_entry g) (input_video_label g) (output_dir_label g)
        (progress_maximum g) value
        (log_text g) (warnings g).

(** [self.progress_bar.config(maximum=n)] *)
Definition progress_config (g : CCMGUI) (maximum : nat) : CCMGUI :=
  mkGUI (input_video_path g) (output_video_dir g) (cutie_path g)
        (fps_entry g) (input_video_label g) (output_dir_label g)
        maximum (progress_value g)
        (log_text g) (warnings g).

(** [sorted(l)] on strings, by insertion. *)
Fixpoint insert_sorted (s : string) (l : list string) : list string :=
  match l with
  | [] => [s]
  | x :: rest =>
      if String.leb s x then s :: l else x :: insert_sorted s rest
  end.

Definition sorted (l : list string) : list string :=
  fold_right insert_sorted [] l.

(** The order [sorted] sorts by: strings compared character by character. *)
Definition string_le (a b : string) : Prop := String.leb a b = true.

Section Window.

(** [os.path.isdir], [glob.glob], [os.path.basename] and
    [os.path.splitext] as the system has them; [int] of a string, [None]
    for a ValueError. *)
Variable os_path_isdir : string -> bool.
Variable glob_glob : string -> list string.
Variable os_path_basename : string -> string.
Variable os_path_splitext : string -> string * string.
Variable int_of_string : string -> option Z.

Variable imread : string -> option image.
Variable Canny : image -> Z -> Z -> array2 Z.
Variable writer_opens : string -> Z -> Z -> nat * nat -> bool.

(** [CCMGUI.select_input_video], for the path the dialog returns (empty
    when the dialog is cancelled). *)
Definition select_input_video (file_path : string) (g : CCMGUI) : CCMGUI :=
  if String.eqb file_path EmptyString then g
  else
    log (mkGUI file_path (output_video_dir g) (cutie_path g)
               (fps_entry g) (os_path_basename file_path)
               (output_dir_label g)
               (progress_maximum g) (progress_value g)
               (log_text g) (warnings g))
        ("Input video selected: " ++ file_path)%string.

(** [CCMGUI.select_output_directory], for the directory the dialog
    returns. *)
Definition select_output_directory (directory : string) (g : CCMGUI)
    : CCMGUI :=
  if String.eqb directory EmptyString then g
  else
    log (mkGUI (input_video_path g) directory (cutie_path g)
               (fps_entry g) (input_video_label g) directory
               (progress_maximum g) (progress_value g)
               (log_text g) (warnings g))
        ("Output directory selected: " ++ directory)%string.

(** The names [process_video] derives from the selected video. *)
Definition video_name_of (g : CCMGUI) : string :=
  fst (os_path_splitext (os_path_basename (input_video_path g))).

Definition video_folder_of (g : CCMGUI) : string :=
  os_path_join (cutie_path g) (video_name_of g).

Definition frames_of (g : CCMGUI) : list string :=
  sorted (glob_glob
            (os_path_join
               (os_path_join (os_path_join (video_folder_of g) "visualization")
                             "davis")
               "*.jpg")).

Definition masks_of (g : CCMGUI) : list string :=
  sorted (glob_glob
            (os_path_join (os_path_join (video_folder_of g) "masks") "*.png")).

(** The frame rate of the entry, and the window once an invalid entry has
    been reported. *)
Definition fps_of (g : CCMGUI) : Z * CCMGUI :=
  match int_of_string (fps_entry g) with
  | Some fps => (fps, g)
  | None => (30%Z, log g "FPS value is invalid. Using default FPS = 30.")
  end.

(** [CCMGUI.process_video].  The calls of [update_progress] made during the
    run are those recorded by the run, in their order. *)
Definition process_video (g : CCMGUI) (w : world)
    : (exn + unit) * (CCMGUI * world) :=
  if String.eqb (input_video_path g) EmptyString then
    (inr tt,
     (showwarning "No Input Video" "Please select an input video file." g, w))
  else if String.eqb (output_video_dir g) EmptyString then
    (inr tt,
     (showwarning "No Output Directory" "Please select an output directory."
        g, w))
  else
    let video_name := video_name_of g in
    let video_folder_path := video_folder_of g in
    if negb (os_path_isdir video_folder_path) then
      (inr tt,
       (log g ("[" ++ video_name ++ "] Workspace folder does not exist: "
                   ++ video_folder_path)%string, w))
    else
      let segmented_frames := frames_of g in
      let masks := masks_of g in
      match segmented_frames, masks with
      | [], _ =>
          (inr tt,
           (log g ("[" ++ video_name ++ "] No segmented frames found in: "
                       ++ video_folder_path)%string, w))
      | _ :: _, [] =>
          (inr tt,
           (log g ("[" ++ video_name ++ "] No masks found in: "
                       ++ video_folder_path)%string, w))
      | _ :: _, _ :: _ =>
          let '(fps, g1) := fps_of g in
          let g2 :=
            log g1 ("[" ++ video_name ++ "] Processing started...")%string in
          let g3 :=
            update_progress (progress_config g2 (length segmented_frames)) 0 in
          let '(r, w') :=
            ContouredVideoProduction imread Canny writer_opens video_name
              segmented_frames masks fps (Some (output_video_dir g)) true
              w in
          let g4 :=
            fold_left update_progress
              (progress_values (skipn (length (trace w)) (trace w'))) g3 in
          match r with
          | inr _ =>
              (inr tt,
               (log g4 ("[" ++ video_name ++ "] Processing completed.")%string,
                w'))
          | inl e => (inl e, (g4, w'))
          end
      end.

(** The run [process_video] starts when the window is ready. *)
Definition window_run (g : CCMGUI) (ps : list string)
    : (exn + unit) * world :=
  ContouredVideoProduction imread Canny writer_opens (video_name_of g)
    (frames_of g) (masks_of g)
    (fst (fps_of g)) (Some (output_video_dir g)) true (mkWorld ps []).

(** The window when that run has been left. *)
Definition window_after (g : CCMGUI) (ps : list string) : CCMGUI :=
  let g3 :=
    update_progress
      (progress_config
         (log (snd (fps_of g))
              ("[" ++ video_name_of g ++ "] Processing started...")%string)
         (length (frames_of g))) 0 in
  let g4 :=
    fold_left update_progress
      (progress_values (trace (snd (window_run g ps)))) g3 in
  match fst (window_run g ps) with
  | inr _ => log g4 ("[" ++ video_name_of g ++ "] Processing completed.")%string
  | inl _ => g4
  end.

(** All that [process_video] asks for before it starts a run. *)
Definition ready (g : CCMGUI) : Prop :=
  input_video_path g <> EmptyString /\
  output_video_dir g <> EmptyString /\
  os_path_isdir (video_folder_of g) = true /\
  frames_of g <> [] /\
  masks_of g <> [].

End Window.

(** [CCMGUI.__init__] *)
Definition CCMGUI_init : CCMGUI :=
  mkGUI EmptyString EmptyString "C:\Users\User\Cutie\workspace" "30"
        "None" "None" 100 0 [] [].

(** ** A small workspace to run the window on *)

Definition mask3x3 : image :=
  [[(0, 0, 0); (0, 0, 0); (0, 0, 0)];
   [(0, 0, 0); (0, 0, 0); (0, 0, 0)];
   [(0, 0, 0); (0, 0, 0); (0, 0, 0)]]%Z.

(** The files of [disk], with a mask of 3x3 beside them. *)
Definition misfit_disk (path : string) : option image :=
  if String.eqb path "big.png" then Some mask3x3 else disk path.

(** The files of [misfit_disk], the mask "m1.png" unreadable. *)
Definition corrupt_misfit_disk (path : string) : option image :=
  if String.eqb path "m1.png" then None else misfit_disk path.

(** The files of [disk], the first frame unreadable. *)
Definition headless_disk (path : string) : option image :=
  if String.eqb path "f0.jpg" then None else disk path.

(** A window with the video "clip.mp4" and the output directory "out"
    selected, on the workspace "ws". *)
Definition demo_window : CCMGUI :=
  mkGUI "clip.mp4" "out" "ws" "24" "clip.mp4" "out" 100 0 [] [].

(** The same with an FPS entry that is no integer. *)
Definition demo_window_bad_fps : CCMGUI :=
  mkGUI "clip.mp4" "out" "ws" "fast" "clip.mp4" "out" 100 0 [] [].

Definition demo_isdir (path : string) : bool := String.eqb path "ws/clip".

(** The workspace of "clip": three frames and three masks, listed in no
    particular order. *)
Definition demo_glob (pattern : string) : list string :=
  if String.eqb pattern "ws/clip/visualization/davis/*.jpg"
  then ["f1.jpg"; "f0.jpg"; "f2.jpg"]
  else if String.eqb pattern "ws/clip/masks/*.png"
  then ["m2.png"; "m0.png"; "m1.png"]
  else [].

(** The same workspace with a single mask. *)
Definition short_glob (pattern : string) : list string :=
  if String.eqb pattern "ws/clip/masks/*.png" then ["m0.png"]
  else demo_glob pattern.

Definition demo_basename (path : string) : string := path.

Definition demo_splitext (path : string) : string * string :=
  if String.eqb path "clip.mp4" then ("clip", ".mp4")
  else (path, EmptyString).

Definition demo_int (s : string) : option Z :=
  if String.eqb s "24" then Some 24%Z else None.

(** The files of [disk], none of the masks readable. *)
Definition maskless_disk (path : string) : option image :=
  if (String.eqb path "m0.png" || String.eqb path "m1.png"
      || String.eqb path "m2.png")%bool then None
  else disk path.
(** ** Facts about arrays *)

Lemma nth_map_seq {A : Type} (f : nat -> A) (d : A) (n i : nat) :
  i < n -> nth i (map f (seq 0 n)) d = f i.
Proof.
  intros Hi.
  rewrite (nth_indep _ d (f 0)) by (rewrite length_map, length_seq; exact Hi).
  rewrite (map_nth f (seq 0 n) 0 i), seq_nth by exact Hi.
  reflexivity.
Qed.

Lemma get_tabulate {A : Type} (f : nat -> nat -> A) (d : A) (h w r c : nat) :
  r < h -> c < w -> get d (tabulate h w f) r c = f r c.
Proof.
  intros Hr Hc. unfold get, tabulate.
  rewrite (nth_indep _ [] (map (fun c0 => f 0 c0) (seq 0 w)))
    by (rewrite length_map, length_seq; exact Hr).
  rewrite (map_nth (fun r0 => map (fun c0 => f r0 c0) (seq 0 w)) (seq 0 h) 0 r).
  rewrite seq_nth by exact Hr. simpl.
  apply nth_map_seq; exact Hc.
Qed.

Lemma shape_tabulate {A : Type} (f : nat -> nat -> A) (h w : nat) :
  0 < h -> shape (tabulate h w f) = (h, w).
Proof.
  intros Hh. unfold shape, tabulate.
  rewrite length_map, length_seq.
  destruct h as [|h]; [lia|].
  simpl. rewrite length_map, length_seq. reflexivity.
Qed.

Lemma shape_map_map {A B : Type} (f : A -> B) (a : array2 A) :
  shape (map (map f) a) = shape a.
Proof.
  unfold shape. rewrite length_map.
  destruct a as [|row a]; simpl; [reflexivity|].
  rewrite length_map. reflexivity.
Qed.

Lemma get_map_map {A B : Type} (f : A -> B) (dA : A) (dB : B)
    (a : array2 A) (r c : nat) :
  r < length a -> c < length (nth r a []) ->
  get dB (map (map f) a) r c = f (get dA a r c).
Proof.
  intros Hr Hc. unfold get.
  rewrite (nth_indep _ [] (map f [])) by (rewrite length_map; exact Hr).
  rewrite (map_nth (map f) a [] r).
  rewrite (nth_indep _ dB (f dA)) by (rewrite length_map; exact Hc).
  apply map_nth.
Qed.

Lemma broadcast_same (n : nat) : broadcast n n = Some n.
Proof. unfold broadcast. rewrite Nat.eqb_refl. reflexivity. Qed.

Lemma bidx_lt (dim i : nat) : i < dim -> bidx dim i = i.
Proof.
  intros Hi. unfold bidx.
  destruct (dim =? 1) eqn:E; [|reflexivity].
  apply Nat.eqb_eq in E. lia.
Qed.

Lemma get_map_map_default {A B : Type} (f : A -> B) (dA : A) (dB : B)
    (a : array2 A) (r c : nat) :
  f dA = dB -> get dB (map (map f) a) r c = f (get dA a r c).
Proof.
  intros Hd. unfold get. subst dB.
  change (@nil B) with (map f []).
  rewrite (map_nth (map f) a [] r).
  apply map_nth.
Qed.

Lemma get_uint8 (a : image) (r c : nat) :
  uint8_image a -> uint8_pixel (get black a r c).
Proof.
  intros Ha. unfold get.
  assert (Hrow : Forall uint8_pixel (nth r a [])).
  { destruct (nth_in_or_default r a []) as [Hin | Heq].
    - unfold uint8_image in Ha. rewrite Forall_forall in Ha. apply Ha, Hin.
    - rewrite Heq. constructor. }
  destruct (nth_in_or_default c (nth r a []) black) as [Hin | Heq].
  - rewrite Forall_forall in Hrow. apply Hrow, Hin.
  - rewrite Heq. unfold black, uint8_pixel, uint8. lia.
Qed.

Lemma astype_uint8_pixel (p : pixel) :
  uint8_pixel p -> map3 (fun v => (v mod 256)%Z) p = p.
Proof.
  destruct p as [[b g] r]. unfold uint8_pixel, uint8. intros (Hb & Hg & Hr).
  simpl. rewrite !Z.mod_small by lia. reflexivity.
Qed.

(** The mask of [colored_edges > 0] at a position is the edge bit, three
    times. *)
Lemma get_gt0_colored (edges : array2 Z) (r c : nat) :
  get (false, false, false) (gt0 (cvtColor_GRAY2BGR edges)) r c =
  (edge_at edges r c, edge_at edges r c, edge_at edges r c).
Proof.
  unfold gt0, cvtColor_GRAY2BGR, edge_at.
  rewrite (get_map_map_default _ (0, 0, 0)%Z) by reflexivity.
  rewrite (get_map_map_default _ 0%Z) by reflexivity.
  reflexivity.
Qed.

Lemma shape_gt0_colored (edges : array2 Z) :
  shape (gt0 (cvtColor_GRAY2BGR edges)) = shape edges.
Proof.
  unfold gt0, cvtColor_GRAY2BGR. rewrite !shape_map_map. reflexivity.
Qed.

Lemma overlay_same_shape (original_image : image) (edges : array2 Z) :
  shape edges = shape original_image ->
  exists out,
    overlay original_image edges = inr out /\
    shape out = shape original_image /\
    forall r c, r < fst (shape original_image) ->
                c < snd (shape original_image) ->
      get black out r c =
      map3 (fun v => (v mod 256)%Z) (overlay_cell original_image edges r c).
Proof.
  intros Hs. unfold overlay, np_where.
  rewrite shape_gt0_colored, Hs.
  destruct (shape original_image) as [h w] eqn:Hso.
  rewrite !broadcast_same.
  eexists. split; [reflexivity|]. split.
  - unfold astype_uint8. rewrite shape_map_map.
    destruct h as [|h].
    + unfold shape in Hso. destruct original_image; [|discriminate].
      simpl in Hso. inversion Hso. reflexivity.
    + apply shape_tabulate. lia.
  - intros r c Hr Hc. simpl in Hr, Hc. unfold astype_uint8.
    rewrite (get_map_map_default _ black) by reflexivity.
    rewrite get_tabulate by assumption.
    rewrite !bidx_lt by assumption.
    rewrite get_gt0_colored. reflexivity.
Qed.

(** C6 (as amended): for an 8-bit frame and an edge map of the same width
    and height, the overlay succeeds, keeps the frame's shape, and at every
    position p holds pure white where the edge map marks p and the frame's
    own pixel, unchanged, where it does not.  Consequently the output is
    white at p exactly when p is an edge or the frame is already white
    there. *)
Theorem overlay_rule (original_image : image) (edges : array2 Z) :
  shape edges = shape original_image ->
  uint8_image original_image ->
  exists out,
    overlay original_image edges = inr out /\
    shape out = shape original_image /\
    forall r c, r < fst (shape original_image) ->
                c < snd (shape original_image) ->
      (edge_at edges r c = true -> get black out r c = white) /\
      (edge_at edges r c = false ->
         get black out r c = get black original_image r c) /\
      (get black out r c = white <->
         edge_at edges r c = true \/ get black original_image r c = white).
Proof.
  intros Hs Hu.
  destruct (overlay_same_shape original_image edges Hs)
    as (out & Ho & Hso & Hget).
  exists out. split; [exact Ho|]. split; [exact Hso|].
  intros r c Hr Hc. rewrite (Hget r c Hr Hc). unfold overlay_cell.
  pose proof (get_uint8 original_image r c Hu) as Hpx.
  destruct (get black original_image r c) as [[b g] rr] eqn:Hp.
  destruct (edge_at edges r c) eqn:He; simpl.
  - repeat split; try reflexivity; try discriminate.
    intros _. left. reflexivity.
  - change (((b mod 256)%Z, (g mod 256)%Z, (rr mod 256)%Z))
      with (map3 (fun v => (v mod 256)%Z) (b, g, rr)).
    rewrite (astype_uint8_pixel _ Hpx).
    repeat split; try reflexivity; try discriminate.
    + intros H. right. exact H.
    + intros [H | H]; [discriminate | exact H].
Qed.


(** ** More on the overlay *)

Lemma tabulate_ext {A : Type} (h w : nat) (f g : nat -> nat -> A) :
  (forall r c, r < h -> c < w -> f r c = g r c) ->
  tabulate h w f = tabulate h w g.
Proof.
  intros H. unfold tabulate.
  apply map_ext_in. intros r Hr. apply in_seq in Hr.
  apply map_ext_in. intros c Hc. apply in_seq in Hc.
  apply H; lia.
Qed.

Lemma map_map_tabulate {A B : Type} (k : A -> B) (h w : nat)
    (f : nat -> nat -> A) :
  map (map k) (tabulate h w f) = tabulate h w (fun r c => k (f r c)).
Proof.
  unfold tabulate. rewrite map_map.
  apply map_ext. intros r. rewrite map_map. reflexivity.
Qed.

Lemma map_nth_seq {A : Type} (l : list A) (d : A) :
  map (fun i => nth i l d) (seq 0 (length l)) = l.
Proof.
  apply nth_ext with (d := d) (d' := d).
  - rewrite length_map, length_seq. reflexivity.
  - intros n Hn. rewrite length_map, length_seq in Hn.
    exact (nth_map_seq (fun i => nth i l d) d (length l) n Hn).
Qed.

(** A rectangular array is the table of its cells. *)
Lemma tabulate_get {A : Type} (d : A) (a : array2 A) :
  rectangular a ->
  tabulate (fst (shape a)) (snd (shape a)) (get d a) = a.
Proof.
  intros Hrect. unfold tabulate, get.
  transitivity (map (fun r => nth r a []) (seq 0 (length a)));
    [|apply map_nth_seq].
  change (fst (shape a)) with (length a).
  apply map_ext_in. intros r Hr. apply in_seq in Hr.
  assert (Hlen : length (nth r a []) = snd (shape a)).
  { unfold rectangular in Hrect. rewrite Forall_forall in Hrect.
    apply Hrect. apply nth_In. lia. }
  rewrite <- Hlen. apply map_nth_seq.
Qed.

(** The overlay on an image of the same shape, as a table. *)
Lemma overlay_same_shape_table (original_image : image) (edges : array2 Z) :
  shape edges = shape original_image ->
  overlay original_image edges =
  inr (tabulate (fst (shape original_image)) (snd (shape original_image))
         (fun r c =>
            map3 (fun v => (v mod 256)%Z)
                 (overlay_cell original_image edges r c))).
Proof.
  intros Hs. unfold overlay, np_where.
  rewrite shape_gt0_colored, Hs.
  destruct (shape original_image) as [h w].
  rewrite !broadcast_same. cbn [fst snd].
  unfold astype_uint8. rewrite map_map_tabulate.
  f_equal. apply tabulate_ext. intros r c Hr Hc.
  rewrite !bidx_lt by assumption.
  rewrite get_gt0_colored. reflexivity.
Qed.

(** An edge map that marks nothing leaves an 8-bit frame of its shape as
    it is. *)
Theorem overlay_without_edges (original_image : image) (edges : array2 Z) :
  shape edges = shape original_image ->
  rectangular original_image ->
  uint8_image original_image ->
  (forall r c, edge_at edges r c = false) ->
  overlay original_image edges = inr original_image.
Proof.
  intros Hs Hrect Hu Hno.
  rewrite (overlay_same_shape_table _ _ Hs). f_equal.
  transitivity (tabulate (fst (shape original_image))
                         (snd (shape original_image))
                         (get black original_image));
    [|apply tabulate_get; exact Hrect].
  apply tabulate_ext. intros r c _ _.
  unfold overlay_cell. rewrite Hno.
  pose proof (get_uint8 original_image r c Hu) as Hpx.
  destruct (get black original_image r c) as [[b g] rr] eqn:Hp.
  cbn [zip3 white].
  apply astype_uint8_pixel. exact Hpx.
Qed.

Lemma astype_uint8_image (a : image) : uint8_image (astype_uint8 a).
Proof.
  unfold uint8_image, astype_uint8.
  apply Forall_forall. intros row Hrow.
  apply in_map_iff in Hrow. destruct Hrow as (row0 & <- & _).
  apply Forall_forall. intros p Hp.
  apply in_map_iff in Hp. destruct Hp as ([[b g] r] & <- & _).
  unfold map3, uint8_pixel, uint8.
  repeat split; apply Z.mod_pos_bound; lia.
Qed.

(** Whatever the frame and the edge map, a composed frame is an 8-bit
    image. *)
Lemma overlay_uint8 (original_image : image) (edges : array2 Z) (out : image) :
  overlay original_image edges = inr out -> uint8_image out.
Proof.
  unfold overlay.
  destruct (np_where _ _ _) as [e|a]; intros H; [discriminate|].
  inversion H. apply astype_uint8_image.
Qed.

(** The overlay fails exactly when numpy cannot broadcast the edge map and
    the frame onto each other, and then with a ValueError. *)
Theorem overlay_value_error (original_image : image) (edges : array2 Z) :
  (broadcastable (shape edges) (shape original_image) = false ->
   overlay original_image edges = inl ValueError) /\
  (forall e, overlay original_image edges = inl e ->
     e = ValueError /\
     broadcastable (shape edges) (shape original_image) = false).
Proof.
  unfold overlay, np_where, broadcastable.
  rewrite shape_gt0_colored.
  destruct (shape edges) as [he we].
  destruct (shape original_image) as [h w]. cbn [fst snd].
  destruct (broadcast he h) as [h'|]; destruct (broadcast we w) as [w'|];
    split; try discriminate; try reflexivity;
    intros e H; inversion H; split; reflexivity.
Qed.

(** ** Sorting the locations *)

Lemma ascii_compare_cases (x y : ascii) :
  (Ascii.compare x y = Eq /\ x = y) \/
  (Ascii.compare x y = Lt /\ (N_of_ascii x < N_of_ascii y)%N) \/
  (Ascii.compare x y = Gt /\ (N_of_ascii y < N_of_ascii x)%N).
Proof.
  destruct (Ascii.compare x y) eqn:E.
  - left. split; [reflexivity|]. apply Ascii.compare_eq_iff. exact E.
  - right. left. split; [reflexivity|].
    unfold Ascii.compare in E. apply N.compare_lt_iff. exact E.
  - right. right. split; [reflexivity|].
    unfold Ascii.compare in E. apply N.compare_gt_iff. exact E.
Qed.

Lemma string_leb_trans (a : string) :
  forall b c, String.leb a b = true -> String.leb b c = true ->
              String.leb a c = true.
Proof.
  unfold String.leb.
  induction a as [|x a IH]; intros b c Hab Hbc.
  - destruct c; reflexivity.
  - destruct b as [|y b]; [discriminate Hab|].
    destruct c as [|z c]; [discriminate Hbc|].
    cbn [String.compare] in *.
    destruct (ascii_compare_cases x y)
      as [[Exy Hxy] | [[Exy Hxy] | [Exy Hxy]]];
      rewrite Exy in Hab; try discriminate Hab;
      destruct (ascii_compare_cases y z)
        as [[Eyz Hyz] | [[Eyz Hyz] | [Eyz Hyz]]];
      rewrite Eyz in Hbc; try discriminate Hbc;
      destruct (ascii_compare_cases x z)
        as [[Exz Hxz] | [[Exz Hxz] | [Exz Hxz]]];
      rewrite Exz; try reflexivity; subst; try lia;
      try congruence; try exact (IH b c Hab Hbc).
Qed.

Lemma insert_sorted_perm (s : string) (l : list string) :
  Permutation (insert_sorted s l) (s :: l).
Proof.
  induction l as [|x l IH]; simpl; [apply Permutation_refl|].
  destruct (String.leb s x); [apply Permutation_refl|].
  eapply Permutation_trans; [apply perm_skip; exact IH|].
  apply perm_swap.
Qed.

Lemma sorted_perm (l : list string) : Permutation (sorted l) l.
Proof.
  induction l as [|x l IH]; simpl; [apply Permutation_refl|].
  eapply Permutation_trans; [apply insert_sorted_perm|].
  apply perm_skip. exact IH.
Qed.

Lemma insert_sorted_sorted (s : string) (l : list string) :
  StronglySorted string_le l -> StronglySorted string_le (insert_sorted s l).
Proof.
  induction l as [|x l IH]; intros Hl; simpl.
  - constructor; constructor.
  - inversion Hl as [|? ? Hrest Hall]; subst.
    destruct (String.leb s x) eqn:E.
    + constructor; [exact Hl|].
      constructor; [exact E|].
      apply Forall_forall. intros y Hy.
      rewrite Forall_forall in Hall.
      exact (string_leb_trans s x y E (Hall y Hy)).
    + constructor; [apply IH; exact Hrest|].
      apply Forall_forall. intros y Hy.
      apply (Permutation_in _ (insert_sorted_perm s l)) in Hy.
      destruct Hy as [<- | Hy].
      * destruct (String.leb_total s x) as [H | H]; [congruence | exact H].
      * rewrite Forall_forall in Hall. exact (Hall y Hy).
Qed.

Lemma sorted_sorted (l : list string) : StronglySorted string_le (sorted l).
Proof.
  induction l as [|x l IH]; simpl; [constructor|].
  apply insert_sorted_sorted. exact IH.
Qed.

Lemma sorted_unique (l1 : list string) :
  forall l2,
    StronglySorted string_le l1 -> StronglySorted string_le l2 ->
    Permutation l1 l2 -> l1 = l2.
Proof.
  induction l1 as [|x l1 IH]; intros l2 H1 H2 Hp.
  - apply Permutation_nil in Hp. symmetry. exact Hp.
  - destruct l2 as [|y l2];
      [apply Permutation_sym, Permutation_nil in Hp; discriminate Hp|].
    inversion H1 as [|? ? Hs1 Ha1]; subst.
    inversion H2 as [|? ? Hs2 Ha2]; subst.
    assert (Hxy : x = y).
    { assert (Hx : In x (y :: l2))
        by (apply (Permutation_in _ Hp); left; reflexivity).
      assert (Hy : In y (x :: l1))
        by (apply (Permutation_in _ (Permutation_sym Hp)); left; reflexivity).
      destruct Hx as [Hx | Hx]; [symmetry; exact Hx|].
      destruct Hy as [Hy | Hy]; [exact Hy|].
      rewrite Forall_forall in Ha1, Ha2.
      apply String.leb_antisym; [apply Ha1 | apply Ha2]; assumption. }
    subst y. f_equal.
    apply IH; [exact Hs1 | exact Hs2 |].
    apply Permutation_cons_inv with (a := x). exact Hp.
Qed.

(** The sorted list is the same for every listing of the same locations. *)
Lemma sorted_perm_eq (l l' : list string) :
  Permutation l l' -> sorted l = sorted l'.
Proof.
  intros Hp.
  apply sorted_unique; [apply sorted_sorted | apply sorted_sorted |].
  eapply Permutation_trans; [apply sorted_perm|].
  eapply Permutation_trans; [exact Hp|].
  apply Permutation_sym, sorted_perm.
Qed.
(** ** Directory names *)

Lemma string_length_append (a b : string) :
  String.length (a ++ b)%string = String.length a + String.length b.
Proof.
  induction a as [|c a IH]; simpl; [reflexivity|].
  rewrite IH. reflexivity.
Qed.

Lemma string_app_assoc (a b c : string) :
  ((a ++ b) ++ c)%string = (a ++ b ++ c)%string.
Proof.
  induction a as [|x a IH]; simpl; [reflexivity|].
  rewrite IH. reflexivity.
Qed.

Lemma string_app_nil_r (a : string) : (a ++ EmptyString)%string = a.
Proof.
  induction a as [|x a IH]; simpl; [reflexivity|].
  rewrite IH. reflexivity.
Qed.

(** The two parts of a split make up the name. *)
Lemma split_last_sep_app (p : string) :
  p = (fst (split_last_sep p) ++ snd (split_last_sep p))%string.
Proof.
  induction p as [|c rest IH]; simpl; [reflexivity|].
  destruct (split_last_sep rest) as [head tail]. simpl in IH.
  destruct head as [|h head'].
  - simpl in IH. subst rest.
    destruct (Ascii.eqb c "/"); reflexivity.
  - cbn [fst snd] in *. simpl. f_equal. exact IH.
Qed.

Lemma rstrip_sep_prefix (s : string) :
  exists k, s = (rstrip_sep s ++ k)%string.
Proof.
  induction s as [|c rest [k IH]]; simpl.
  - exists EmptyString. reflexivity.
  - destruct (rstrip_sep rest) as [|r0 r].
    + destruct (Ascii.eqb c "/").
      * exists (String c rest). reflexivity.
      * exists rest. reflexivity.
    + exists k. simpl. rewrite IH at 1. reflexivity.
Qed.

(** The head of a split is a beginning of the name, and what follows it is
    at least the tail. *)
Lemma posix_split_prefix (p : string) :
  exists rest,
    p = (fst (posix_split p) ++ rest)%string /\
    String.length (snd (posix_split p)) <= String.length rest.
Proof.
  unfold posix_split.
  pose proof (split_last_sep_app p) as Hp.
  destruct (split_last_sep p) as [head tail]. cbn [fst snd] in *.
  destruct (rstrip_sep_prefix head) as [k Hk].
  destruct (rstrip_sep head) as [|r0 r].
  - exists tail. split; [exact Hp | lia].
  - exists (k ++ tail)%string. split.
    + rewrite <- string_app_assoc, <- Hk. exact Hp.
    + rewrite string_length_append. lia.
Qed.

Lemma makedirs_split_prefix (name : string) :
  exists rest,
    name = (fst (makedirs_split name) ++ rest)%string /\
    String.length (snd (makedirs_split name)) <= String.length rest.
Proof.
  unfold makedirs_split.
  destruct (posix_split_prefix name) as (r1 & H1 & L1).
  destruct (posix_split name) as [head tail]. cbn [fst snd] in *.
  destruct (String.eqb tail EmptyString).
  - destruct (posix_split_prefix head) as (r2 & H2 & L2).
    exists (r2 ++ r1)%string. split.
    + rewrite <- string_app_assoc, <- H2. exact H1.
    + rewrite string_length_append. lia.
  - exists r1. split; assumption.
Qed.

(** Every directory [os.makedirs(name)] makes is a beginning of [name]:
    [name] itself or a directory above it. *)
Lemma makedirs_made_prefix (existing : list string) (fuel : nat) :
  forall name p,
    In p (makedirs_made fuel existing name) ->
    exists rest, name = (p ++ rest)%string.
Proof.
  assert (Hself : forall name p : string, In p [name] ->
            exists rest, name = (p ++ rest)%string).
  { intros name p [H | []]. subst p. exists EmptyString.
    symmetry. apply string_app_nil_r. }
  induction fuel as [|fuel IH]; intros name p; simpl;
    destruct (makedirs_split_prefix name) as (r & Hr & _);
    destruct (makedirs_split name) as [head tail]; cbn [fst] in Hr;
    destruct (negb (String.eqb head EmptyString)
              && negb (String.eqb tail EmptyString)
              && negb (existsb (String.eqb head) existing))%bool;
    try apply Hself.
  intros H.
  assert (Hin : In p (makedirs_made fuel existing head) \/ In p [name]).
  { destruct (String.eqb tail "."); [left; exact H|].
    apply in_app_or in H. exact H. }
  destruct Hin as [Hin | Hin]; [|apply Hself; exact Hin].
  destruct (IH head p Hin) as [r2 Hr2].
  exists (r2 ++ r)%string.
  rewrite <- string_app_assoc, <- Hr2. exact Hr.
Qed.

(** The fuel is never used up: from [String.length name] on, more of it
    changes nothing. *)
Lemma makedirs_made_fuel (existing : list string) (fuel : nat) :
  forall fuel' name,
    String.length name <= fuel -> String.length name <= fuel' ->
    makedirs_made fuel existing name = makedirs_made fuel' existing name.
Proof.
  induction fuel as [|fuel IH]; intros fuel' name Hf Hf';
    destruct fuel' as [|fuel']; simpl;
    destruct (makedirs_split_prefix name) as (r & Hr & Lr);
    destruct (makedirs_split name) as [head tail]; cbn [fst snd] in Hr, Lr;
    destruct (String.eqb head EmptyString) eqn:Eh; try reflexivity;
    destruct (String.eqb tail EmptyString) eqn:Et; try reflexivity;
    cbn [negb andb];
    destruct (existsb (String.eqb head) existing); try reflexivity;
    cbn [negb];
    apply (f_equal String.length) in Hr;
    rewrite string_length_append in Hr;
    (assert (Hlen : String.length head < String.length name)
       by (destruct tail; [discriminate Et|]; simpl in Lr; lia));
    try lia.
  rewrite (IH fuel' head) by lia. reflexivity.
Qed.

Lemma makedirs_made_no_longer (existing : list string) (name p : string) :
  In p (makedirs_made (String.length name) existing name) ->
  String.length p <= String.length name.
Proof.
  intros H. apply makedirs_made_prefix in H. destruct H as [rest H].
  apply (f_equal String.length) in H.
  rewrite string_length_append in H. lia.
Qed.

Lemma makedirs_made_step (existing : list string) (fuel : nat)
    (name head tail : string) :
  makedirs_split name = (head, tail) ->
  makedirs_made (S fuel) existing name =
  if (negb (String.eqb head EmptyString) && negb (String.eqb tail EmptyString)
      && negb (existsb (String.eqb head) existing))%bool
  then (if String.eqb tail "." then makedirs_made fuel existing head
        else makedirs_made fuel existing head ++ [name])
  else [name].
Proof.
  intros H. cbn delta [makedirs_made] fix beta. cbn match. rewrite H.
  reflexivity.
Qed.

(** A name with nothing above it is made alone. *)
Lemma makedirs_made_top (existing : list string) (fuel : nat)
    (name tail : string) :
  makedirs_split name = (EmptyString, tail) ->
  makedirs_made fuel existing name = [name].
Proof.
  intros H. destruct fuel; cbn delta [makedirs_made] fix beta; cbn match;
    rewrite H; reflexivity.
Qed.
(** ** Properties *)

(** Runs the monadic operations of a goal. *)
Ltac run_m :=
  repeat (unfold bind, ret, raise, emit; simpl; rewrite <- ?app_assoc; simpl).

Section Properties.

Variable imread : string -> option image.
Variable Canny : image -> Z -> Z -> array2 Z.
Variable writer_opens : string -> Z -> Z -> nat * nat -> bool.

(** The edge map has the width and height of the mask it is taken from. *)
Hypothesis Canny_shape :
  forall m lo hi, shape (Canny m lo hi) = shape m.

Local Abbreviation body := (loop_body imread Canny).
Local Abbreviation pres := (pair_result imread Canny).
Local Abbreviation lres := (loop_result imread Canny).

Lemma loop_body_spec name frames masks cb lo hi i w :
  body name frames masks cb lo hi i w =
  (outcome (fst (pres name frames masks cb lo hi i)),
   mkWorld (paths w) (trace w ++ snd (pres name frames masks cb lo hi i))).
Proof.
  unfold loop_body, pair_result, index, cv2_imread, lift, print,
    video_writer_write.
  destruct (nth_error frames i) as [pf|]; run_m.
  2:{ rewrite app_nil_r. destruct w; reflexivity. }
  destruct (nth_error masks i) as [pm|]; run_m; [|reflexivity].
  destruct (imread pf) as [f|]; run_m; [|reflexivity].
  destruct (imread pm) as [m|]; run_m; [|reflexivity].
  destruct (overlay f (Canny m lo hi)) as [e|img]; run_m; [reflexivity|].
  destruct cb; run_m; try rewrite app_nil_r; reflexivity.
Qed.

Lemma for_each_spec name frames masks cb lo hi indices :
  forall w,
    for_each indices (body name frames masks cb lo hi) w =
    (outcome (fst (lres name frames masks cb lo hi indices)),
     mkWorld (paths w)
             (trace w ++ snd (lres name frames masks cb lo hi indices))).
Proof.
  induction indices as [|i rest IH]; intros w; simpl.
  - unfold ret. rewrite app_nil_r. destruct w; reflexivity.
  - unfold bind. rewrite loop_body_spec.
    destruct (pres name frames masks cb lo hi i) as [[e|] evs]; simpl.
    + reflexivity.
    + rewrite IH. simpl.
      destruct (lres name frames masks cb lo hi rest) as [r evs']; simpl.
      rewrite <- app_assoc. reflexivity.
Qed.

(** *** The whole function, case by case *)

Local Abbreviation run :=
  (ContouredVideoProduction imread Canny writer_opens).


Lemma bind_ok {A B : Type} (m : M A) (k : A -> M B) (w : world) (a : A)
    (w' : world) :
  m w = (inr a, w') -> bind m k w = k a w'.
Proof. intros H. unfold bind. rewrite H. reflexivity. Qed.

Lemma bind_err {A B : Type} (m : M A) (k : A -> M B) (w : world) (e : exn)
    (w' : world) :
  m w = (inl e, w') -> bind m k w = (inl e, w').
Proof. intros H. unfold bind. rewrite H. reflexivity. Qed.

Lemma makedirs_step (dir : string) (w : world) :
  (if negb (existsb (String.eqb dir) (paths w))
   then os_makedirs dir else ret tt) w = (inr tt, after_makedirs dir w).
Proof.
  unfold after_makedirs, os_makedirs, ret.
  destruct (existsb (String.eqb dir) (paths w)); reflexivity.
Qed.

Lemma run_empty name masks fps od cb w :
  run name [] masks fps od cb w =
  (inr tt,
   mkWorld (paths (after_makedirs (output_dir_of od) w))
           (trace (after_makedirs (output_dir_of od) w)
            ++ [EvPrint (NoSegmentedFrames name)])).
Proof.
  unfold ContouredVideoProduction, after_makedirs, os_path_exists,
    os_makedirs, print.
  fold (output_dir_of od). run_m.
  destruct (existsb (String.eqb (output_dir_of od)) (paths w)); run_m;
    reflexivity.
Qed.

Lemma run_first_unreadable name p0 rest masks fps od cb w :
  imread p0 = None ->
  run name (p0 :: rest) masks fps od cb w =
  (inr tt,
   mkWorld (paths (after_makedirs (output_dir_of od) w))
           (trace (after_makedirs (output_dir_of od) w)
            ++ [EvImread p0; EvPrint (FailedFirstFrame name p0)])).
Proof.
  intros H0.
  unfold ContouredVideoProduction, after_makedirs, os_path_exists,
    os_makedirs, print, index, cv2_imread.
  fold (output_dir_of od). run_m.
  destruct (existsb (String.eqb (output_dir_of od)) (paths w)); run_m;
    rewrite H0; run_m; reflexivity.
Qed.

Lemma run_streaming_cons name p0 rest masks fps od cb w f0 :
  imread p0 = Some f0 ->
  run name (p0 :: rest) masks fps od cb w =
  (outcome (fst (lres name (p0 :: rest) masks cb 1%Z 256%Z
                   (seq 0 (length (p0 :: rest))))),
   mkWorld (paths (after_makedirs (output_dir_of od) w)
            ++ (if writer_opens (output_path_of od name)
                      (VideoWriter_fourcc "m" "p" "4" "v") fps
                      (snd (shape f0), fst (shape f0))
                then [output_path_of od name] else []))
           (trace (after_makedirs (output_dir_of od) w)
            ++ [EvImread p0;
                EvVideoWriter (output_path_of od name)
                  (VideoWriter_fourcc "m" "p" "4" "v") fps
                  (snd (shape f0), fst (shape f0))]
            ++ snd (lres name (p0 :: rest) masks cb 1%Z 256%Z
                      (seq 0 (length (p0 :: rest))))
            ++ epilogue name (output_path_of od name)
                 (fst (lres name (p0 :: rest) masks cb 1%Z 256%Z
                         (seq 0 (length (p0 :: rest))))))).
Proof.
  intros H0.
  unfold ContouredVideoProduction.
  fold (output_dir_of od). fold (output_path_of od name).
  change (length (p0 :: rest) =? 0) with false. cbv iota.
  set (frames := p0 :: rest).
  set (w1 := after_makedirs (output_dir_of od) w).
  rewrite (bind_ok _ _ w (existsb (String.eqb (output_dir_of od)) (paths w)) w)
    by reflexivity.
  rewrite (bind_ok _ _ w tt w1) by apply makedirs_step.
  rewrite (bind_ok _ _ w1 p0 w1) by reflexivity.
  rewrite (bind_ok _ _ w1 (Some f0)
             (mkWorld (paths w1) (trace w1 ++ [EvImread p0])))
    by (unfold cv2_imread; run_m; rewrite H0; reflexivity).
  destruct (shape f0) as [height width]. cbn [fst snd].
  erewrite bind_ok by (unfold cv2_VideoWriter; reflexivity).
  cbn [paths trace]. unfold for_range.
  destruct (lres name frames masks cb 1%Z 256%Z (seq 0 (length frames)))
    as [r evs] eqn:Hl.
  cbn [fst snd].
  destruct r as [e|].
  - erewrite bind_err
      by (rewrite for_each_spec, Hl; cbn [fst snd outcome]; reflexivity).
    cbn [outcome epilogue paths trace].
    rewrite app_nil_r, <- !app_assoc. reflexivity.
  - erewrite bind_ok
      by (rewrite for_each_spec, Hl; cbn [fst snd outcome]; reflexivity).
    cbn [outcome epilogue paths trace].
    unfold video_writer_release, cv2_destroyAllWindows, print. run_m.
    reflexivity.
Qed.

Lemma first_frame (frames : list string) (p0 : string) :
  nth_error frames 0 = Some p0 -> exists rest, frames = p0 :: rest.
Proof.
  destruct frames as [|q rest]; simpl; intros H; [discriminate|].
  inversion H. exists rest. reflexivity.
Qed.

(** A run whose first frame can be read: the writer is opened with the
    frame's width and height, the loop runs, and the writer is released
    if the loop came to its end. *)
Lemma run_streaming name frames masks fps od cb w p0 f0 :
  nth_error frames 0 = Some p0 ->
  imread p0 = Some f0 ->
  run name frames masks fps od cb w =
  (outcome (fst (lres name frames masks cb 1%Z 256%Z
                   (seq 0 (length frames)))),
   mkWorld (paths (after_makedirs (output_dir_of od) w)
            ++ (if writer_opens (output_path_of od name)
                      (VideoWriter_fourcc "m" "p" "4" "v") fps
                      (snd (shape f0), fst (shape f0))
                then [output_path_of od name] else []))
           (trace (after_makedirs (output_dir_of od) w)
            ++ [EvImread p0;
                EvVideoWriter (output_path_of od name)
                  (VideoWriter_fourcc "m" "p" "4" "v") fps
                  (snd (shape f0), fst (shape f0))]
            ++ snd (lres name frames masks cb 1%Z 256%Z
                      (seq 0 (length frames)))
            ++ epilogue name (output_path_of od name)
                 (fst (lres name frames masks cb 1%Z 256%Z
                         (seq 0 (length frames)))))).
Proof.
  intros Hp0 H0. destruct (first_frame frames p0 Hp0) as [rest ->].
  apply run_streaming_cons. exact H0.
Qed.

(** *** One iteration *)

Local Abbreviation dec := (decodable imread).
Local Abbreviation cont := (contoured imread Canny).

Lemma overlay_fits (f m : image) (lo hi : Z) :
  shape m = shape f ->
  exists img, overlay f (Canny m lo hi) = inr img /\ shape img = shape f.
Proof.
  intros Hs.
  destruct (overlay_same_shape f (Canny m lo hi)) as (img & Ho & Hsh & _).
  - rewrite Canny_shape. exact Hs.
  - exists img. split; assumption.
Qed.

Lemma nth_error_in_range {A : Type} (l : list A) (i : nat) :
  i < length l -> exists x, nth_error l i = Some x.
Proof.
  intros Hi. destruct (nth_error l i) as [x|] eqn:E.
  - exists x. reflexivity.
  - apply nth_error_None in E. lia.
Qed.

(** An iteration within both lists raises nothing when the mask fits. *)
Lemma pres_clean name frames masks cb lo hi i :
  i < length frames -> i < length masks ->
  masks_fit imread frames masks ->
  fst (pres name frames masks cb lo hi i) = None.
Proof.
  intros Hf Hm Hfit. unfold pair_result.
  destruct (nth_error_in_range frames i Hf) as [pf Epf].
  destruct (nth_error_in_range masks i Hm) as [pm Epm].
  rewrite Epf, Epm.
  destruct (imread pf) as [f|] eqn:Ef; [|reflexivity].
  destruct (imread pm) as [m|] eqn:Em; [|reflexivity].
  destruct (overlay_fits f m lo hi (Hfit i pf pm f m Epf Epm Ef Em))
    as (img & Ho & _).
  rewrite Ho. reflexivity.
Qed.

Lemma pres_index_error name frames masks cb lo hi i :
  i < length frames -> length masks <= i ->
  exists pf, nth_error frames i = Some pf /\
    pres name frames masks cb lo hi i = (Some (IndexError i), [EvImread pf]).
Proof.
  intros Hf Hm. unfold pair_result.
  destruct (nth_error_in_range frames i Hf) as [pf Epf].
  exists pf. split; [exact Epf|].
  rewrite Epf.
  assert (Em : nth_error masks i = None) by (apply nth_error_None; exact Hm).
  rewrite Em. reflexivity.
Qed.

Lemma contoured_decodable frames masks lo hi i img :
  cont frames masks lo hi i = Some img -> dec frames masks i = true.
Proof.
  unfold contoured, decodable.
  destruct (nth_error frames i) as [pf|]; [|discriminate].
  destruct (nth_error masks i) as [pm|]; [|discriminate].
  destruct (imread pf); [|discriminate].
  destruct (imread pm); [|discriminate].
  reflexivity.
Qed.

Lemma decodable_contoured frames masks lo hi i :
  masks_fit imread frames masks ->
  dec frames masks i = true ->
  exists img, cont frames masks lo hi i = Some img.
Proof.
  intros Hfit. unfold contoured, decodable.
  destruct (nth_error frames i) as [pf|] eqn:Epf; [|discriminate].
  destruct (nth_error masks i) as [pm|] eqn:Epm; [|discriminate].
  destruct (imread pf) as [f|] eqn:Ef; [|discriminate].
  destruct (imread pm) as [m|] eqn:Em; [|discriminate].
  intros _.
  destruct (overlay_fits f m lo hi (Hfit i pf pm f m Epf Epm Ef Em))
    as (img & Ho & _).
  rewrite Ho. exists img. reflexivity.
Qed.

(** The frame an iteration writes is the one composed from its pair. *)
Lemma written_pres name frames masks cb lo hi i :
  written (snd (pres name frames masks cb lo hi i)) =
  olist (cont frames masks lo hi i).
Proof.
  unfold pair_result, contoured.
  destruct (nth_error frames i) as [pf|]; [|reflexivity].
  destruct (nth_error masks i) as [pm|]; [|reflexivity].
  destruct (imread pf) as [f|]; [|reflexivity].
  destruct (imread pm) as [m|]; [|reflexivity].
  destruct (overlay f (Canny m lo hi)) as [e|img]; [reflexivity|].
  destruct cb; reflexivity.
Qed.

(** The callback is called by the iterations that write, with [i + 1]. *)
Lemma progress_pres name frames masks cb lo hi i :
  progress_values (snd (pres name frames masks cb lo hi i)) =
  if cb then map (fun _ => i + 1) (olist (cont frames masks lo hi i))
  else [].
Proof.
  unfold pair_result, contoured.
  destruct (nth_error frames i) as [pf|]; [|destruct cb; reflexivity].
  destruct (nth_error masks i) as [pm|]; [|destruct cb; reflexivity].
  destruct (imread pf) as [f|]; [|destruct cb; reflexivity].
  destruct (imread pm) as [m|]; [|destruct cb; reflexivity].
  destruct (overlay f (Canny m lo hi)) as [e|img]; destruct cb; reflexivity.
Qed.

(** An iteration that raises nothing reports its index when, and only
    when, its pair cannot be read. *)
Lemma skipped_pres name frames masks cb lo hi i :
  fst (pres name frames masks cb lo hi i) = None ->
  skipped (snd (pres name frames masks cb lo hi i)) =
  if dec frames masks i then [] else [i].
Proof.
  unfold pair_result, decodable.
  destruct (nth_error frames i) as [pf|]; [|discriminate].
  destruct (nth_error masks i) as [pm|]; [|discriminate].
  destruct (imread pf) as [f|]; [|reflexivity].
  destruct (imread pm) as [m|]; [|reflexivity].
  destruct (overlay f (Canny m lo hi)) as [e|img]; [discriminate|].
  destruct cb; reflexivity.
Qed.

Lemma clean_contoured name frames masks cb lo hi i :
  fst (pres name frames masks cb lo hi i) = None ->
  length (olist (cont frames masks lo hi i)) =
  if dec frames masks i then 1 else 0.
Proof.
  unfold pair_result, decodable, contoured.
  destruct (nth_error frames i) as [pf|]; [|discriminate].
  destruct (nth_error masks i) as [pm|]; [|discriminate].
  destruct (imread pf) as [f|]; [|reflexivity].
  destruct (imread pm) as [m|]; [|reflexivity].
  destruct (overlay f (Canny m lo hi)) as [e|img]; [discriminate|].
  reflexivity.
Qed.

Lemma raising_contoured name frames masks cb lo hi i e :
  fst (pres name frames masks cb lo hi i) = Some e ->
  cont frames masks lo hi i = None.
Proof.
  unfold pair_result, contoured.
  destruct (nth_error frames i) as [pf|]; [|reflexivity].
  destruct (nth_error masks i) as [pm|]; [|reflexivity].
  destruct (imread pf) as [f|]; [|reflexivity].
  destruct (imread pm) as [m|]; [|reflexivity].
  destruct (overlay f (Canny m lo hi)) as [e'|img]; [reflexivity|].
  discriminate.
Qed.

Lemma raising_skipped name frames masks cb lo hi i e :
  fst (pres name frames masks cb lo hi i) = Some e ->
  skipped (snd (pres name frames masks cb lo hi i)) = [].
Proof.
  unfold pair_result.
  destruct (nth_error frames i) as [pf|]; [|reflexivity].
  destruct (nth_error masks i) as [pm|]; [|reflexivity].
  destruct (imread pf) as [f|]; [|discriminate].
  destruct (imread pm) as [m|]; [|discriminate].
  destruct (overlay f (Canny m lo hi)) as [e'|img]; [reflexivity|].
  discriminate.
Qed.

Lemma releases_pres name frames masks cb lo hi i :
  releases (snd (pres name frames masks cb lo hi i)) = 0.
Proof.
  unfold pair_result.
  destruct (nth_error frames i) as [pf|]; [|reflexivity].
  destruct (nth_error masks i) as [pm|]; [|reflexivity].
  destruct (imread pf) as [f|]; [|reflexivity].
  destruct (imread pm) as [m|]; [|reflexivity].
  destruct (overlay f (Canny m lo hi)) as [e|img]; [reflexivity|].
  destruct cb; reflexivity.
Qed.

Lemma writers_pres name frames masks cb lo hi i :
  writers (snd (pres name frames masks cb lo hi i)) = [].
Proof.
  unfold pair_result.
  destruct (nth_error frames i) as [pf|]; [|reflexivity].
  destruct (nth_error masks i) as [pm|]; [|reflexivity].
  destruct (imread pf) as [f|]; [|reflexivity].
  destruct (imread pm) as [m|]; [|reflexivity].
  destruct (overlay f (Canny m lo hi)) as [e|img]; [reflexivity|].
  destruct cb; reflexivity.
Qed.

Lemma made_dirs_pres name frames masks cb lo hi i :
  made_dirs (snd (pres name frames masks cb lo hi i)) = [].
Proof.
  unfold pair_result.
  destruct (nth_error frames i) as [pf|]; [|reflexivity].
  destruct (nth_error masks i) as [pm|]; [|reflexivity].
  destruct (imread pf) as [f|]; [|reflexivity].
  destruct (imread pm) as [m|]; [|reflexivity].
  destruct (overlay f (Canny m lo hi)) as [e|img]; [reflexivity|].
  destruct cb; reflexivity.
Qed.

(** An iteration that raises nothing reads the two images of its pair. *)
Lemma reads_pres name frames masks cb lo hi i pf pm :
  nth_error frames i = Some pf -> nth_error masks i = Some pm ->
  fst (pres name frames masks cb lo hi i) = None ->
  reads (snd (pres name frames masks cb lo hi i)) = [pf; pm].
Proof.
  intros Epf Epm. unfold pair_result. rewrite Epf, Epm.
  destruct (imread pf) as [f|]; [|reflexivity].
  destruct (imread pm) as [m|]; [|reflexivity].
  destruct (overlay f (Canny m lo hi)) as [e|img]; [discriminate|].
  destruct cb; reflexivity.
Qed.

(** *** The loop *)

Lemma flat_map_flat_map {A B C : Type} (f : A -> list B) (g : B -> list C)
    (l : list A) :
  flat_map g (flat_map f l) = flat_map (fun x => flat_map g (f x)) l.
Proof.
  induction l as [|x l IH]; simpl; [reflexivity|].
  rewrite flat_map_app, IH. reflexivity.
Qed.

Lemma flat_map_filter {A : Type} (p : A -> bool) (l : list A) :
  flat_map (fun x => if p x then [x] else []) l = filter p l.
Proof.
  induction l as [|x l IH]; simpl; [reflexivity|].
  rewrite IH. destruct (p x); reflexivity.
Qed.

Lemma releases_app (a b : list event) :
  releases (a ++ b) = releases a + releases b.
Proof. unfold releases. rewrite flat_map_app, length_app. reflexivity. Qed.

(** A stretch of iterations none of which raises runs to its end. *)
Lemma lres_clean name frames masks cb lo hi indices :
  (forall i, In i indices -> fst (pres name frames masks cb lo hi i) = None) ->
  lres name frames masks cb lo hi indices =
  (None, flat_map (fun i => snd (pres name frames masks cb lo hi i)) indices).
Proof.
  induction indices as [|i rest IH]; intros Hc; simpl; [reflexivity|].
  pose proof (Hc i (or_introl eq_refl)) as Hi.
  destruct (pres name frames masks cb lo hi i) as [r evs]. simpl in Hi.
  subst r. rewrite IH by (intros j Hj; apply Hc; right; exact Hj).
  reflexivity.
Qed.

(** The loop stops at the first iteration that raises. *)
Lemma lres_stop name frames masks cb lo hi before k after e :
  (forall i, In i before -> fst (pres name frames masks cb lo hi i) = None) ->
  fst (pres name frames masks cb lo hi k) = Some e ->
  lres name frames masks cb lo hi (before ++ k :: after) =
  (Some e,
   flat_map (fun i => snd (pres name frames masks cb lo hi i)) before
   ++ snd (pres name frames masks cb lo hi k)).
Proof.
  induction before as [|i rest IH]; intros Hc Hk; simpl.
  - destruct (pres name frames masks cb lo hi k) as [r evs]. simpl in Hk.
    subst r. reflexivity.
  - pose proof (Hc i (or_introl eq_refl)) as Hi.
    destruct (pres name frames masks cb lo hi i) as [r evs]. simpl in Hi.
    subst r.
    rewrite IH by (try (intros j Hj; apply Hc; right); assumption).
    rewrite <- app_assoc. reflexivity.
Qed.

Lemma releases_lres name frames masks cb lo hi indices :
  releases (snd (lres name frames masks cb lo hi indices)) = 0.
Proof.
  induction indices as [|i rest IH]; simpl; [reflexivity|].
  pose proof (releases_pres name frames masks cb lo hi i) as Hi.
  destruct (pres name frames masks cb lo hi i) as [[e|] evs]; simpl in *.
  - exact Hi.
  - destruct (lres name frames masks cb lo hi rest) as [r evs']. simpl in *.
    rewrite releases_app, Hi, IH. reflexivity.
Qed.

Lemma writers_lres name frames masks cb lo hi indices :
  writers (snd (lres name frames masks cb lo hi indices)) = [].
Proof.
  induction indices as [|i rest IH]; simpl; [reflexivity|].
  pose proof (writers_pres name frames masks cb lo hi i) as Hi.
  destruct (pres name frames masks cb lo hi i) as [[e|] evs]; simpl in *.
  - exact Hi.
  - destruct (lres name frames masks cb lo hi rest) as [r evs']. simpl in *.
    unfold writers in *. rewrite flat_map_app, Hi, IH. reflexivity.
Qed.

Lemma made_dirs_lres name frames masks cb lo hi indices :
  made_dirs (snd (lres name frames masks cb lo hi indices)) = [].
Proof.
  induction indices as [|i rest IH]; simpl; [reflexivity|].
  pose proof (made_dirs_pres name frames masks cb lo hi i) as Hi.
  destruct (pres name frames masks cb lo hi i) as [[e|] evs]; simpl in *.
  - exact Hi.
  - destruct (lres name frames masks cb lo hi rest) as [r evs']. simpl in *.
    unfold made_dirs in *. rewrite flat_map_app, Hi, IH. reflexivity.
Qed.

(** The frames written by a stretch of iterations that raise nothing: one
    for every pair that can be read, in the order of the indices. *)
Lemma written_clean name frames masks cb lo hi indices :
  (forall i, In i indices -> fst (pres name frames masks cb lo hi i) = None) ->
  map Some (flat_map (fun i => olist (cont frames masks lo hi i)) indices) =
  map (cont frames masks lo hi) (filter (dec frames masks) indices).
Proof.
  induction indices as [|i rest IH]; intros Hc; simpl; [reflexivity|].
  rewrite map_app, IH by (intros j Hj; apply Hc; right; exact Hj).
  pose proof (clean_contoured name frames masks cb lo hi i
                (Hc i (or_introl eq_refl))) as Hl.
  destruct (dec frames masks i);
    destruct (cont frames masks lo hi i) as [img|] eqn:Ec; simpl in *;
    try discriminate; try rewrite Ec; reflexivity.
Qed.

(** However the loop ends, it has gone through the first [k] pairs without
    an exception, for some [k], and what it wrote, reported and skipped is
    what these [k] iterations did. *)
Lemma lres_prefix name frames masks cb lo hi :
  forall n a,
  exists k,
    k <= n /\
    (fst (lres name frames masks cb lo hi (seq a n)) = None -> k = n) /\
    (forall i, In i (seq a k) ->
               fst (pres name frames masks cb lo hi i) = None) /\
    written (snd (lres name frames masks cb lo hi (seq a n))) =
      flat_map (fun i => olist (cont frames masks lo hi i)) (seq a k) /\
    progress_values (snd (lres name frames masks cb lo hi (seq a n))) =
      (if cb then map (fun i => i + 1) (filter (dec frames masks) (seq a k))
       else []) /\
    skipped (snd (lres name frames masks cb lo hi (seq a n))) =
      filter (fun i => negb (dec frames masks i)) (seq a k).
Proof.
  induction n as [|n IH]; intros a.
  - exists 0. simpl.
    split; [lia|]. split; [reflexivity|]. split; [intros i []|].
    split; [reflexivity|]. split; [destruct cb; reflexivity | reflexivity].
  - simpl.
    pose proof (written_pres name frames masks cb lo hi a) as Hw.
    pose proof (progress_pres name frames masks cb lo hi a) as Hp.
    destruct (pres name frames masks cb lo hi a) as [[e|] evs] eqn:Ea.
    + exists 0. simpl.
      assert (He : fst (pres name frames masks cb lo hi a) = Some e)
        by (rewrite Ea; reflexivity).
      pose proof (raising_contoured _ _ _ _ _ _ _ _ He) as Hc.
      pose proof (raising_skipped _ _ _ _ _ _ _ _ He) as Hs.
      rewrite Ea in Hs. simpl in Hw, Hp, Hs. rewrite Hc in Hw, Hp.
      split; [lia|]. split; [discriminate|]. split; [intros i []|].
      split; [exact Hw|]. split; [|exact Hs].
      rewrite Hp. destruct cb; reflexivity.
    + assert (Hn : fst (pres name frames masks cb lo hi a) = None)
        by (rewrite Ea; reflexivity).
      pose proof (skipped_pres _ _ _ _ _ _ _ Hn) as Hs.
      pose proof (clean_contoured _ _ _ _ _ _ _ Hn) as Hl.
      rewrite Ea in Hs. simpl in Hw, Hp, Hs.
      destruct (IH (S a)) as (k & Hk & Hfull & Hclean & Hwk & Hpk & Hsk).
      destruct (lres name frames masks cb lo hi (seq (S a) n))
        as [r evs'] eqn:El. simpl in Hfull, Hwk, Hpk, Hsk. simpl.
      exists (S k).
      split; [lia|].
      split; [intros Hr; rewrite (Hfull Hr); reflexivity|].
      split.
      { intros i [Hi | Hi]; [subst i; exact Hn | apply Hclean; exact Hi]. }
      split.
      { unfold written in *. rewrite flat_map_app, Hw, Hwk. reflexivity. }
      split.
      { unfold progress_values in *. rewrite flat_map_app, Hp, Hpk.
        destruct cb; [|reflexivity]. simpl.
        destruct (dec frames masks a);
          destruct (cont frames masks lo hi a); simpl in *;
          try discriminate; reflexivity. }
      unfold skipped in *. rewrite flat_map_app, Hs, Hsk. simpl.
      destruct (dec frames masks a); reflexivity.
Qed.

(** *** Runs that reach the loop *)

Lemma flat_map_after_makedirs {B : Type} (g : event -> list B)
    (dir : string) (ps : list string) :
  g (EvMakedirs dir) = [] ->
  flat_map g (trace (after_makedirs dir (mkWorld ps []))) = [].
Proof.
  intros Hg. unfold after_makedirs. simpl.
  destruct (existsb (String.eqb dir) ps); simpl; [reflexivity|].
  rewrite Hg. reflexivity.
Qed.

Lemma releases_after_makedirs (dir : string) (ps : list string) :
  releases (trace (after_makedirs dir (mkWorld ps []))) = 0.
Proof.
  unfold releases. rewrite flat_map_after_makedirs by reflexivity.
  reflexivity.
Qed.

Lemma filter_all {A : Type} (p : A -> bool) (l : list A) :
  (forall x, In x l -> p x = true) -> filter p l = l.
Proof.
  induction l as [|x l IH]; intros H; simpl; [reflexivity|].
  rewrite (H x (or_introl eq_refl)), IH; [reflexivity|].
  intros y Hy. apply H. right. exact Hy.
Qed.

Lemma nth_error_seq0 (n i : nat) : i < n -> nth_error (seq 0 n) i = Some i.
Proof.
  intros Hi.
  rewrite (nth_error_nth' (seq 0 n) 0) by (rewrite length_seq; exact Hi).
  rewrite seq_nth by exact Hi. reflexivity.
Qed.

(** A run whose first frame can be read, whose mask list is long enough
    and whose masks fit their frames goes through all the pairs and ends
    normally. *)
Lemma complete_run name frames masks fps od cb ps p0 f0 :
  nth_error frames 0 = Some p0 ->
  imread p0 = Some f0 ->
  length frames <= length masks ->
  masks_fit imread frames masks ->
  let res := run name frames masks fps od cb (mkWorld ps []) in
  fst res = inr tt /\
  map Some (written (trace (snd res))) =
    map (cont frames masks 1%Z 256%Z)
        (filter (dec frames masks) (seq 0 (length frames))) /\
  skipped (trace (snd res)) =
    filter (fun i => negb (dec frames masks i)) (seq 0 (length frames)) /\
  progress_values (trace (snd res)) =
    (if cb
     then map (fun i => i + 1)
              (filter (dec frames masks) (seq 0 (length frames)))
     else []) /\
  writers (trace (snd res)) =
    [(output_path_of od name, (snd (shape f0), fst (shape f0)))] /\
  releases (trace (snd res)) = 1.
Proof.
  intros Hp0 H0 Hlen Hfit res.
  assert (Hclean : forall i, In i (seq 0 (length frames)) ->
            fst (pres name frames masks cb 1%Z 256%Z i) = None).
  { intros i Hi. apply in_seq in Hi.
    apply pres_clean; [lia | lia | exact Hfit]. }
  pose proof (lres_clean name frames masks cb 1%Z 256%Z _ Hclean) as Hl.
  pose proof (writers_lres name frames masks cb 1%Z 256%Z
                (seq 0 (length frames))) as Hwr.
  pose proof (releases_lres name frames masks cb 1%Z 256%Z
                (seq 0 (length frames))) as Hrl.
  destruct (lres_prefix name frames masks cb 1%Z 256%Z (length frames) 0)
    as (k & _ & Hfull & _ & Hw & Hp & Hs).
  unfold res.
  rewrite (run_streaming name frames masks fps od cb _ p0 f0 Hp0 H0).
  destruct (lres name frames masks cb 1%Z 256%Z (seq 0 (length frames)))
    as [r evs].
  inversion Hl; subst r evs. clear Hl.
  cbn [fst snd] in Hfull, Hw, Hp, Hs, Hwr, Hrl.
  rewrite (Hfull eq_refl) in Hw, Hp, Hs. clear k Hfull.
  cbn [fst snd outcome epilogue trace].
  split; [reflexivity|].
  split.
  { unfold written in *.
    rewrite !flat_map_app, flat_map_after_makedirs by reflexivity.
    rewrite Hw. cbn [flat_map app]. rewrite app_nil_r.
    apply written_clean with (name := name) (cb := cb). exact Hclean. }
  split.
  { unfold skipped in *.
    rewrite !flat_map_app, flat_map_after_makedirs by reflexivity.
    rewrite Hs. cbn [flat_map app]. rewrite app_nil_r. reflexivity. }
  split.
  { unfold progress_values in *.
    rewrite !flat_map_app, flat_map_after_makedirs by reflexivity.
    rewrite Hp. cbn [flat_map app]. rewrite app_nil_r. reflexivity. }
  split.
  { unfold writers in *.
    rewrite !flat_map_app, flat_map_after_makedirs by reflexivity.
    rewrite Hwr. reflexivity. }
  rewrite !releases_app, Hrl, releases_after_makedirs.
  reflexivity.
Qed.

(** *** Frames written *)

Lemma uniform_fits frames masks s :
  uniform imread frames masks s -> masks_fit imread frames masks.
Proof.
  intros Hu i pf pm f m Epf Epm Ef Em.
  destruct (Hu i pf pm Epf Epm) as (f' & m' & Ef' & Em' & Hsf & Hsm).
  rewrite Ef in Ef'. rewrite Em in Em'.
  inversion Ef'. inversion Em'. subst f' m'. congruence.
Qed.

Lemma uniform_contoured frames masks s lo hi i :
  uniform imread frames masks s ->
  i < length frames -> i < length masks ->
  dec frames masks i = true /\
  exists img, cont frames masks lo hi i = Some img /\ shape img = s.
Proof.
  intros Hu Hf Hm. unfold decodable, contoured.
  destruct (nth_error_in_range frames i Hf) as [pf Epf].
  destruct (nth_error_in_range masks i Hm) as [pm Epm].
  rewrite Epf, Epm.
  destruct (Hu i pf pm Epf Epm) as (f & m & Ef & Em & Hsf & Hsm).
  rewrite Ef, Em. split; [reflexivity|].
  destruct (overlay_fits f m lo hi) as (img & Ho & Hs); [congruence|].
  rewrite Ho. exists img. split; [reflexivity | congruence].
Qed.

Lemma nth_error_map_some {A : Type} (l : list A) (h : nat -> option A)
    (n i : nat) (a : A) :
  map Some l = map h (seq 0 n) -> i < n -> h i = Some a ->
  nth_error l i = Some a.
Proof.
  intros Heq Hi Ha.
  assert (E : nth_error (map Some l) i = nth_error (map h (seq 0 n)) i)
    by (rewrite Heq; reflexivity).
  rewrite !nth_error_map, nth_error_seq0 in E by exact Hi.
  simpl in E. rewrite Ha in E.
  destruct (nth_error l i) as [x|]; simpl in E; [|discriminate].
  inversion E. reflexivity.
Qed.

(** C1 (as amended): on a non-empty frame list and a mask list at least
    as long, where every frame and every mask of the N pairs decodes to an
    image of the width and height of the first decoded frame, the run
    ends normally, the video writer is opened once with that width and
    height, exactly N frames are handed to it, the i-th of them is the
    frame composed from the pair i, and each has the width and height of
    the first decoded frame. *)
Theorem every_pair_written name frames masks fps od cb ps p0 f0 :
  nth_error frames 0 = Some p0 ->
  imread p0 = Some f0 ->
  length frames <= length masks ->
  uniform imread frames masks (shape f0) ->
  let res := run name frames masks fps od cb (mkWorld ps []) in
  fst res = inr tt /\
  writers (trace (snd res)) =
    [(output_path_of od name, (snd (shape f0), fst (shape f0)))] /\
  length (written (trace (snd res))) = length frames /\
  forall i, i < length frames ->
    exists img,
      cont frames masks 1%Z 256%Z i = Some img /\
      nth_error (written (trace (snd res))) i = Some img /\
      shape img = shape f0.
Proof.
  intros Hp0 H0 Hlen Hu res.
  destruct (complete_run name frames masks fps od cb ps p0 f0 Hp0 H0 Hlen
              (uniform_fits _ _ _ Hu))
    as (Hr & Hw & _ & _ & Hwr & _).
  fold res in Hr, Hw, Hwr.
  rewrite filter_all in Hw.
  2:{ intros i Hi. apply in_seq in Hi.
      apply (uniform_contoured frames masks (shape f0) 1%Z 256%Z i Hu);
        lia. }
  split; [exact Hr|]. split; [exact Hwr|]. split.
  - rewrite <- (length_map Some), Hw, length_map, length_seq. reflexivity.
  - intros i Hi.
    destruct (uniform_contoured frames masks (shape f0) 1%Z 256%Z i Hu)
      as (_ & img & Hc & Hs); [lia | lia |].
    exists img. split; [exact Hc|]. split; [|exact Hs].
    exact (nth_error_map_some _ _ _ _ _ Hw Hi Hc).
Qed.

(** C2 (as amended): when the first frame has been decoded, the mask
    list is at least as long as the frame list and the masks that can be
    read have the width and height of their frames, a pair whose
    frame or mask cannot be decoded is reported and skipped, no frame is
    written for it, the loop goes on with the next index, and the run ends
    normally: the frames written are those of the readable pairs, in
    order, the indices skipped are those of the unreadable pairs, and
    together they are the N pairs.  With exactly one unreadable pair,
    N - 1 frames are written and one pair is skipped. *)
Theorem unreadable_pairs_skipped name frames masks fps od cb ps p0 f0 :
  nth_error frames 0 = Some p0 ->
  imread p0 = Some f0 ->
  length frames <= length masks ->
  masks_fit imread frames masks ->
  let res := run name frames masks fps od cb (mkWorld ps []) in
  let unreadable :=
    filter (fun i => negb (dec frames masks i)) (seq 0 (length frames)) in
  fst res = inr tt /\
  skipped (trace (snd res)) = unreadable /\
  map Some (written (trace (snd res))) =
    map (cont frames masks 1%Z 256%Z)
        (filter (dec frames masks) (seq 0 (length frames))) /\
  (forall i, i < length frames -> dec frames masks i = false ->
     In i (skipped (trace (snd res))) /\
     cont frames masks 1%Z 256%Z i = None) /\
  length (written (trace (snd res))) + length (skipped (trace (snd res)))
    = length frames /\
  (forall k, unreadable = [k] ->
     length (written (trace (snd res))) = length frames - 1 /\
     length (skipped (trace (snd res))) = 1).
Proof.
  intros Hp0 H0 Hlen Hfit res unreadable.
  destruct (complete_run name frames masks fps od cb ps p0 f0 Hp0 H0 Hlen
              Hfit) as (Hr & Hw & Hs & _).
  fold res in Hr, Hw, Hs. fold unreadable in Hs.
  assert (Hcount : length (written (trace (snd res)))
                   + length (skipped (trace (snd res))) = length frames).
  { rewrite <- (length_map Some), Hw, length_map, Hs. unfold unreadable.
    rewrite filter_length, length_seq. reflexivity. }
  split; [exact Hr|]. split; [exact Hs|]. split; [exact Hw|].
  split; [|split; [exact Hcount|]].
  - intros i Hi Hd. split.
    + rewrite Hs. unfold unreadable. apply filter_In. split.
      * apply in_seq. lia.
      * rewrite Hd. reflexivity.
    + destruct (cont frames masks 1%Z 256%Z i) as [img|] eqn:Ec;
        [|reflexivity].
      rewrite (contoured_decodable _ _ _ _ _ _ Ec) in Hd. discriminate.
  - intros k Hk. rewrite Hs, Hk in Hcount. simpl in Hcount.
    rewrite Hs, Hk. simpl. lia.
Qed.

(** C8 (as amended): the function compares no dimensions.  When a later
    pair decodes to a frame whose width and height differ from those the
    writer was opened with (and to a mask that fits it), its composed
    frame is handed to the writer in its own width and height like any
    other, and the run goes on to its normal end. *)
Theorem other_size_frame_written name frames masks fps od cb ps p0 f0
    i pf pm f m :
  nth_error frames 0 = Some p0 ->
  imread p0 = Some f0 ->
  length frames <= length masks ->
  masks_fit imread frames masks ->
  nth_error frames i = Some pf -> nth_error masks i = Some pm ->
  imread pf = Some f -> imread pm = Some m ->
  shape f <> shape f0 ->
  let res := run name frames masks fps od cb (mkWorld ps []) in
  fst res = inr tt /\
  writers (trace (snd res)) =
    [(output_path_of od name, (snd (shape f0), fst (shape f0)))] /\
  exists img,
    overlay f (Canny m 1%Z 256%Z) = inr img /\
    In img (written (trace (snd res))) /\
    shape img = shape f /\ shape img <> shape f0.
Proof.
  intros Hp0 H0 Hlen Hfit Epf Epm Ef Em Hne res.
  destruct (complete_run name frames masks fps od cb ps p0 f0 Hp0 H0 Hlen
              Hfit) as (Hr & Hw & _ & _ & Hwr & _).
  fold res in Hr, Hw, Hwr.
  split; [exact Hr|]. split; [exact Hwr|].
  destruct (overlay_fits f m 1%Z 256%Z (Hfit i pf pm f m Epf Epm Ef Em))
    as (img & Ho & Hs).
  exists img. split; [exact Ho|]. split; [|split; [exact Hs | congruence]].
  assert (Hc : cont frames masks 1%Z 256%Z i = Some img).
  { unfold contoured. rewrite Epf, Epm, Ef, Em, Ho. reflexivity. }
  assert (Hd : dec frames masks i = true)
    by exact (contoured_decodable _ _ _ _ _ _ Hc).
  assert (Hi : i < length frames)
    by (apply nth_error_Some; rewrite Epf; discriminate).
  assert (Hin : In (Some img)
            (map (cont frames masks 1%Z 256%Z)
                 (filter (dec frames masks) (seq 0 (length frames))))).
  { rewrite <- Hc. apply in_map. apply filter_In. split; [|exact Hd].
    apply in_seq. lia. }
  rewrite <- Hw in Hin. apply in_map_iff in Hin.
  destruct Hin as (x & Hx & Hin). inversion Hx. subst x. exact Hin.
Qed.

(** *** Progress, alignment and release *)

(** C3 (as amended): the progress callback, when one is supplied, is
    called exactly once for every pair whose frame is written, in index
    order, with the pair's index plus one, and not at all for a pair that
    is skipped.  Here [k] is the number of pairs the loop went through
    without an exception; it is the number of frames when the run opened
    the writer and ended normally. *)
Theorem progress_for_written_pairs name frames masks fps od cb ps :
  let res := run name frames masks fps od cb (mkWorld ps []) in
  exists k,
    k <= length frames /\
    progress_values (trace (snd res)) =
      (if cb
       then map (fun i => i + 1) (filter (dec frames masks) (seq 0 k))
       else []) /\
    map Some (written (trace (snd res))) =
      map (cont frames masks 1%Z 256%Z)
          (filter (dec frames masks) (seq 0 k)) /\
    skipped (trace (snd res)) =
      filter (fun i => negb (dec frames masks i)) (seq 0 k) /\
    (fst res = inr tt -> writers (trace (snd res)) <> [] ->
     k = length frames).
Proof.
  intros res. unfold res.
  destruct frames as [|p0 rest].
  - rewrite run_empty. cbn [fst snd trace].
    exists 0. split; [lia|].
    unfold progress_values, written, skipped, writers.
    rewrite !flat_map_app, !flat_map_after_makedirs by reflexivity.
    simpl. repeat split; try reflexivity; destruct cb; reflexivity.
  - destruct (imread p0) as [f0|] eqn:H0.
    + rewrite (run_streaming name (p0 :: rest) masks fps od cb _ p0 f0
                 eq_refl H0).
      destruct (lres_prefix name (p0 :: rest) masks cb 1%Z 256%Z
                  (length (p0 :: rest)) 0)
        as (k & Hk & Hfull & Hclean & Hw & Hp & Hs).
      destruct (lres name (p0 :: rest) masks cb 1%Z 256%Z
                  (seq 0 (length (p0 :: rest)))) as [r evs].
      cbn [fst snd trace] in *.
      exists k. split; [exact Hk|].
      split.
      { unfold progress_values in *.
        rewrite !flat_map_app, flat_map_after_makedirs by reflexivity.
        rewrite Hp. destruct r; cbn [epilogue flat_map app];
          rewrite app_nil_r; reflexivity. }
      split.
      { unfold written in *.
        rewrite !flat_map_app, flat_map_after_makedirs by reflexivity.
        rewrite Hw.
        replace (flat_map _ (epilogue _ _ r)) with (@nil image)
          by (destruct r; reflexivity).
        cbn [flat_map app]. rewrite app_nil_r.
        apply written_clean with (name := name) (cb := cb). exact Hclean. }
      split.
      { unfold skipped in *.
        rewrite !flat_map_app, flat_map_after_makedirs by reflexivity.
        rewrite Hs.
        replace (flat_map _ (epilogue _ _ r)) with (@nil nat)
          by (destruct r; reflexivity).
        cbn [flat_map app]. rewrite app_nil_r. reflexivity. }
      intros Hr _. destruct r as [e|]; [discriminate Hr|].
      apply Hfull. reflexivity.
    + rewrite (run_first_unreadable name p0 rest masks fps od cb _ H0).
      cbn [fst snd trace].
      exists 0. split; [lia|].
      unfold progress_values, written, skipped, writers.
      rewrite !flat_map_app, !flat_map_after_makedirs by reflexivity.
      simpl. split; [destruct cb; reflexivity|].
      split; [reflexivity|]. split; [reflexivity|].
      intros _ Hne. exfalso. apply Hne. reflexivity.
Qed.

(** C4 (as amended): when the mask list is strictly shorter than the
    frame list, the first frame decodes and the masks that can be read
    have the width and height of their frames, the run
    is aborted by the out-of-range fault of [masks[i]] exactly at the
    first index without a mask, [i = len(masks)]; the frames written are
    those of the readable pairs below that index, so none is written for
    that index or a later one, and when all the earlier pairs can be read
    exactly [len(masks)] frames have been written. *)
Theorem short_mask_list_aborts name frames masks fps od cb ps p0 f0 :
  length masks < length frames ->
  nth_error frames 0 = Some p0 ->
  imread p0 = Some f0 ->
  masks_fit imread frames masks ->
  let res := run name frames masks fps od cb (mkWorld ps []) in
  fst res = inl (IndexError (length masks)) /\
  map Some (written (trace (snd res))) =
    map (cont frames masks 1%Z 256%Z)
        (filter (dec frames masks) (seq 0 (length masks))) /\
  length (written (trace (snd res))) <= length masks /\
  (all_decodable imread frames masks (length masks) ->
   length (written (trace (snd res))) = length masks).
Proof.
  intros Hlen Hp0 H0 Hfit res.
  set (L := length masks) in *.
  assert (Hseq : seq 0 (length frames) =
                 seq 0 L ++ L :: seq (S L) (length frames - S L)).
  { replace (length frames) with (L + S (length frames - S L)) at 1 by lia.
    rewrite seq_app. reflexivity. }
  assert (Hclean : forall i, In i (seq 0 L) ->
            fst (pres name frames masks cb 1%Z 256%Z i) = None).
  { intros i Hi. apply in_seq in Hi.
    apply pres_clean; [lia | fold L; lia | exact Hfit]. }
  destruct (pres_index_error name frames masks cb 1%Z 256%Z L)
    as (pf & Epf & Hpr); [lia | fold L; lia |].
  assert (Hl : lres name frames masks cb 1%Z 256%Z (seq 0 (length frames)) =
               (Some (IndexError L),
                flat_map (fun i => snd (pres name frames masks cb 1%Z 256%Z i))
                         (seq 0 L) ++ [EvImread pf])).
  { rewrite Hseq.
    rewrite (lres_stop name frames masks cb 1%Z 256%Z (seq 0 L) L _
               (IndexError L) Hclean) by (rewrite Hpr; reflexivity).
    rewrite Hpr. reflexivity. }
  assert (Hw : map Some (written (trace (snd res))) =
               map (cont frames masks 1%Z 256%Z)
                   (filter (dec frames masks) (seq 0 L))).
  { unfold res.
    rewrite (run_streaming name frames masks fps od cb _ p0 f0 Hp0 H0), Hl.
    cbn [fst snd trace epilogue].
    unfold written.
    rewrite !flat_map_app, flat_map_after_makedirs by reflexivity.
    rewrite flat_map_flat_map.
    rewrite (flat_map_ext _ (fun i => olist (cont frames masks 1%Z 256%Z i)))
      by (intros i; apply (written_pres name frames masks cb)).
    cbn [flat_map app]. rewrite !app_nil_r.
    apply written_clean with (name := name) (cb := cb). exact Hclean. }
  assert (Hle : length (written (trace (snd res))) <= L).
  { rewrite <- (length_map Some), Hw, length_map.
    etransitivity; [apply filter_length_le|]. rewrite length_seq. lia. }
  split.
  { unfold res.
    rewrite (run_streaming name frames masks fps od cb _ p0 f0 Hp0 H0), Hl.
    reflexivity. }
  split; [exact Hw|]. split; [exact Hle|].
  intros Hall.
  rewrite <- (length_map Some), Hw, length_map.
  rewrite filter_all, length_seq; [reflexivity|].
  intros i Hi. apply in_seq in Hi. apply Hall. lia.
Qed.

(** C5 (as amended): in a run that opened the video writer, the writer is
    released exactly once when the loop comes to its end; when an
    exception leaves the loop, the function does not release it. *)
Theorem release_on_completion_only name frames masks fps od cb ps :
  let res := run name frames masks fps od cb (mkWorld ps []) in
  writers (trace (snd res)) <> [] ->
  (fst res = inr tt -> releases (trace (snd res)) = 1) /\
  (forall e, fst res = inl e -> releases (trace (snd res)) = 0).
Proof.
  intros res. unfold res.
  destruct frames as [|p0 rest].
  - rewrite run_empty. cbn [fst snd trace]. intros Hne. exfalso. apply Hne.
    unfold writers.
    rewrite flat_map_app, flat_map_after_makedirs by reflexivity.
    reflexivity.
  - destruct (imread p0) as [f0|] eqn:H0.
    + rewrite (run_streaming name (p0 :: rest) masks fps od cb _ p0 f0
                 eq_refl H0).
      pose proof (releases_lres name (p0 :: rest) masks cb 1%Z 256%Z
                    (seq 0 (length (p0 :: rest)))) as Hrl.
      destruct (lres name (p0 :: rest) masks cb 1%Z 256%Z
                  (seq 0 (length (p0 :: rest)))) as [r evs].
      cbn [fst snd trace] in *. intros _.
      rewrite !releases_app, Hrl, !releases_after_makedirs.
      destruct r as [e|]; cbn [outcome epilogue]; split.
      * discriminate.
      * intros _ _. reflexivity.
      * intros _. reflexivity.
      * discriminate.
    + rewrite (run_first_unreadable name p0 rest masks fps od cb _ H0).
      cbn [fst snd trace]. intros Hne. exfalso. apply Hne.
      unfold writers.
      rewrite flat_map_app, flat_map_after_makedirs by reflexivity.
      reflexivity.
Qed.

(** *** The output directory and the empty input *)

(** The output file is never the output directory itself. *)
Lemma output_path_differs od name :
  output_path_of od name <> output_dir_of od.
Proof.
  unfold output_path_of, os_path_join. simpl starts_with_sep. cbv iota.
  intros H. apply (f_equal String.length) in H.
  destruct (String.eqb (output_dir_of od) EmptyString
            || ends_with_sep (output_dir_of od))%bool;
    rewrite !string_length_append in H; simpl in H; lia.
Qed.

Lemma default_output_dir : output_dir_of None = "Videos/Contoured Videos".
Proof. reflexivity. Qed.

Lemma default_output_path name :
  output_path_of None name =
  ("Videos/Contoured Videos/Contoured_" ++ name ++ ".mp4")%string.
Proof. reflexivity. Qed.

Lemma output_path_longer od name :
  String.length (output_dir_of od) < String.length (output_path_of od name).
Proof.
  unfold output_path_of, os_path_join. simpl starts_with_sep. cbv iota.
  destruct (String.eqb (output_dir_of od) EmptyString
            || ends_with_sep (output_dir_of od))%bool;
    rewrite !string_length_append; simpl; lia.
Qed.

(** Making the output directory does not make the output file. *)
Lemma output_path_not_made od name ps :
  ~ In (output_path_of od name)
       (makedirs_made (String.length (output_dir_of od)) ps
          (output_dir_of od)).
Proof.
  intros H. apply makedirs_made_no_longer in H.
  pose proof (output_path_longer od name). lia.
Qed.

(** What is on disk once the output directory has been seen to: what was
    there, the directory and directories above it. *)
Lemma paths_after_makedirs dir w p :
  In p (paths (after_makedirs dir w)) ->
  In p (paths w) \/ exists rest, dir = (p ++ rest)%string.
Proof.
  unfold after_makedirs.
  destruct (existsb (String.eqb dir) (paths w)); cbn [paths];
    [left; assumption|].
  intros H. apply in_app_or in H. destruct H as [H | H]; [left; exact H|].
  right. apply (makedirs_made_prefix (paths w) _ dir p H).
Qed.

Lemma output_path_after_makedirs od name w :
  In (output_path_of od name) (paths (after_makedirs (output_dir_of od) w)) ->
  In (output_path_of od name) (paths w).
Proof.
  unfold after_makedirs.
  destruct (existsb (String.eqb (output_dir_of od)) (paths w)); cbn [paths];
    [intros H; exact H|].
  intros H. apply in_app_or in H. destruct H as [H | H]; [exact H|].
  exfalso. exact (output_path_not_made od name (paths w) H).
Qed.

(** The default directory is made with the directory "Videos" above it. *)
Lemma default_dir_made ps :
  makedirs_made (String.length "Videos/Contoured Videos") ps
    "Videos/Contoured Videos" =
  (if existsb (String.eqb "Videos") ps then [] else ["Videos"])
  ++ ["Videos/Contoured Videos"].
Proof.
  change (String.length "Videos/Contoured Videos") with (S 22).
  rewrite (makedirs_made_step ps 22 "Videos/Contoured Videos" "Videos"
             "Contoured Videos") by reflexivity.
  rewrite (makedirs_made_top ps 22 "Videos" "Videos") by reflexivity.
  change (String.eqb "Videos" EmptyString) with false.
  change (String.eqb "Contoured Videos" EmptyString) with false.
  change (String.eqb "Contoured Videos" ".") with false.
  cbn [negb andb].
  destruct (existsb (String.eqb "Videos") ps); reflexivity.
Qed.

Lemma default_dir_after_makedirs ps :
  let w := after_makedirs "Videos/Contoured Videos" (mkWorld ps []) in
  In "Videos/Contoured Videos" (paths w) /\
  (existsb (String.eqb "Videos/Contoured Videos") ps = false ->
   In "Videos" (paths w)).
Proof.
  unfold after_makedirs. cbn [paths].
  destruct (existsb (String.eqb "Videos/Contoured Videos") ps) eqn:E;
    cbn [paths].
  - split; [|discriminate].
    apply existsb_exists in E. destruct E as (x & Hx & Heq).
    apply String.eqb_eq in Heq. subst x. exact Hx.
  - rewrite default_dir_made. split.
    + apply in_or_app. right. apply in_or_app. right. left. reflexivity.
    + intros _. destruct (existsb (String.eqb "Videos") ps) eqn:V.
      * apply existsb_exists in V. destruct V as (x & Hx & Heq).
        apply String.eqb_eq in Heq. subst x.
        apply in_or_app. left. exact Hx.
      * apply in_or_app. right. left. reflexivity.
Qed.

Lemma made_dirs_after_makedirs dir ps :
  made_dirs (trace (after_makedirs dir (mkWorld ps []))) =
  if existsb (String.eqb dir) ps then [] else [dir].
Proof.
  unfold after_makedirs. simpl.
  destruct (existsb (String.eqb dir) ps); reflexivity.
Qed.


(** C10 (as amended): without an output directory the function uses
    "Videos/Contoured Videos": after the run the directory exists, having
    been made (with "Videos" above it) exactly when it was absent, and a
    video writer opened by the run writes to "Contoured_<name>.mp4" in
    it.  One is opened as soon as the first frame can be read.  When it
    can open the file, the file is on disk afterwards; and when moreover
    the mask list is at least as long as the frame list and the readable
    masks have the width and height of their frames, the frames of all
    the readable pairs are handed to that writer, it is released, and the
    function returns normally. *)
Theorem default_output_directory name frames masks fps cb ps :
  let res := run name frames masks fps None cb (mkWorld ps []) in
  let dir := "Videos/Contoured Videos" in
  let file :=
    ("Videos/Contoured Videos/Contoured_" ++ name ++ ".mp4")%string in
  In dir (paths (snd res)) /\
  made_dirs (trace (snd res)) =
    (if existsb (String.eqb dir) ps then [] else [dir]) /\
  (existsb (String.eqb dir) ps = false -> In "Videos" (paths (snd res))) /\
  Forall (fun wr => fst wr = file) (writers (trace (snd res))) /\
  (forall p0 f0,
     nth_error frames 0 = Some p0 -> imread p0 = Some f0 ->
     writers (trace (snd res)) =
       [(file, (snd (shape f0), fst (shape f0)))] /\
     (writer_opens file (VideoWriter_fourcc "m" "p" "4" "v") fps
        (snd (shape f0), fst (shape f0)) = true ->
      In file (paths (snd res)) /\
      (length frames <= length masks ->
       masks_fit imread frames masks ->
       fst res = inr tt /\
       map Some (written (trace (snd res))) =
         map (contoured imread Canny frames masks 1%Z 256%Z)
             (filter (decodable imread frames masks)
                     (seq 0 (length frames))) /\
       releases (trace (snd res)) = 1))).
Proof.
  intros res dir file.
  destruct (default_dir_after_makedirs ps) as [Hdir Hparent].
  fold dir in Hdir, Hparent.
  assert (Hmade : forall evs,
            made_dirs evs = [] ->
            made_dirs (trace (after_makedirs dir (mkWorld ps [])) ++ evs) =
            (if existsb (String.eqb dir) ps then [] else [dir])).
  { intros evs He. unfold made_dirs in *. rewrite flat_map_app, He.
    fold (made_dirs (trace (after_makedirs dir (mkWorld ps [])))).
    rewrite made_dirs_after_makedirs, app_nil_r. reflexivity. }
  destruct frames as [|p0 rest].
  - unfold res. rewrite run_empty. rewrite default_output_dir. fold dir.
    cbn [fst snd paths trace].
    split; [exact Hdir|].
    split; [apply Hmade; reflexivity|].
    split; [exact Hparent|].
    split.
    { unfold writers.
      rewrite flat_map_app, flat_map_after_makedirs by reflexivity.
      constructor. }
    intros q f0 Hq. discriminate Hq.
  - destruct (imread p0) as [f0|] eqn:H0.
    + pose proof (fun Hlen Hfit =>
                    complete_run name (p0 :: rest) masks fps None cb ps
                      p0 f0 eq_refl H0 Hlen Hfit) as Hrun.
      cbv zeta in Hrun. fold res in Hrun.
      assert (Hres : res =
                run name (p0 :: rest) masks fps None cb (mkWorld ps []))
        by reflexivity.
      rewrite (run_streaming name (p0 :: rest) masks fps None cb _ p0 f0
                 eq_refl H0) in Hres.
      rewrite default_output_dir, default_output_path in Hres.
      fold dir in Hres. fold file in Hres.
      pose proof (writers_lres name (p0 :: rest) masks cb 1%Z 256%Z
                    (seq 0 (length (p0 :: rest)))) as Hwr.
      pose proof (made_dirs_lres name (p0 :: rest) masks cb 1%Z 256%Z
                    (seq 0 (length (p0 :: rest)))) as Hmd.
      destruct (lres name (p0 :: rest) masks cb 1%Z 256%Z
                  (seq 0 (length (p0 :: rest)))) as [r evs].
      cbn [fst snd] in Hwr, Hmd, Hres.
      assert (Hw : writers (trace (snd res)) =
                   [(file, (snd (shape f0), fst (shape f0)))]).
      { rewrite Hres. cbn [snd trace]. unfold writers in *.
        rewrite !flat_map_app, flat_map_after_makedirs by reflexivity.
        rewrite Hwr. destruct r; reflexivity. }
      split.
      { rewrite Hres. cbn [snd paths]. apply in_or_app. left. exact Hdir. }
      split.
      { rewrite Hres. cbn [snd trace]. apply Hmade.
        unfold made_dirs in *. rewrite !flat_map_app, Hmd.
        destruct r; reflexivity. }
      split.
      { intros E. rewrite Hres. cbn [snd paths]. apply in_or_app. left.
        exact (Hparent E). }
      split.
      { rewrite Hw. repeat constructor. }
      intros q g0 Hq Hg. simpl in Hq. inversion Hq. subst q.
      rewrite H0 in Hg. inversion Hg. subst g0.
      split; [exact Hw|].
      intros Hopen. split.
      { rewrite Hres. cbn [snd paths]. rewrite Hopen.
        apply in_or_app. right. left. reflexivity. }
      intros Hlen Hfit.
      destruct (Hrun Hlen Hfit) as (Hr & Hwn & _ & _ & _ & Hrel).
      split; [exact Hr|]. split; [exact Hwn | exact Hrel].
    + unfold res.
      rewrite (run_first_unreadable name p0 rest masks fps None cb _ H0).
      rewrite default_output_dir. fold dir.
      cbn [fst snd paths trace].
      split; [exact Hdir|].
      split; [apply Hmade; reflexivity|].
      split; [exact Hparent|].
      split.
      { unfold writers.
        rewrite flat_map_app, flat_map_after_makedirs by reflexivity.
        constructor. }
      intros q f0 Hq Hf. simpl in Hq. inversion Hq. subst q.
      rewrite H0 in Hf. discriminate Hf.
Qed.

(** *** Surplus masks *)

Lemma pres_firstn name frames masks cb lo hi i :
  i < length frames ->
  pres name frames (firstn (length frames) masks) cb lo hi i =
  pres name frames masks cb lo hi i.
Proof.
  intros Hi. unfold pair_result. rewrite nth_error_firstn.
  apply Nat.ltb_lt in Hi. rewrite Hi. reflexivity.
Qed.

Lemma lres_ext name frames masks masks' cb lo hi indices :
  (forall i, In i indices ->
     pres name frames masks' cb lo hi i = pres name frames masks cb lo hi i) ->
  lres name frames masks' cb lo hi indices =
  lres name frames masks cb lo hi indices.
Proof.
  induction indices as [|i rest IH]; intros H; simpl; [reflexivity|].
  rewrite (H i (or_introl eq_refl)).
  rewrite IH by (intros j Hj; apply H; right; exact Hj).
  reflexivity.
Qed.

Lemma lres_firstn name frames masks cb lo hi :
  lres name frames (firstn (length frames) masks) cb lo hi
    (seq 0 (length frames)) =
  lres name frames masks cb lo hi (seq 0 (length frames)).
Proof.
  apply lres_ext. intros i Hi. apply in_seq in Hi.
  apply pres_firstn. lia.
Qed.

Lemma flat_map_ext_in {A B : Type} (f g : A -> list B) (l : list A) :
  (forall x, In x l -> f x = g x) -> flat_map f l = flat_map g l.
Proof.
  induction l as [|x l IH]; intros H; simpl; [reflexivity|].
  rewrite (H x (or_introl eq_refl)), IH; [reflexivity|].
  intros y Hy. apply H. right. exact Hy.
Qed.

Lemma flat_map_map_seq {B : Type} (f : nat -> list B) (n : nat) :
  flat_map f (seq 1 n) = flat_map (fun i => f (S i)) (seq 0 n).
Proof.
  rewrite <- seq_shift.
  induction (seq 0 n) as [|x l IH]; simpl; [reflexivity|].
  rewrite IH. reflexivity.
Qed.

(** Going through the indices of the frame list reads the pairs of
    [zip(segmented_frames, masks)]. *)
Lemma pair_paths_combine (frames : list string) :
  forall masks, length frames <= length masks ->
  flat_map (pair_paths frames masks) (seq 0 (length frames)) =
  flat_map (fun p => [fst p; snd p]) (combine frames masks).
Proof.
  induction frames as [|f fs IH]; intros masks Hlen; [reflexivity|].
  destruct masks as [|m ms]; [simpl in Hlen; lia|].
  simpl length. simpl combine. cbn [seq flat_map].
  rewrite flat_map_map_seq.
  rewrite <- IH by (simpl in Hlen; lia).
  reflexivity.
Qed.

(** C9 (as amended): the mask locations beyond the length of the frame
    list are never looked at: the run is, call for call, the run on the first
    [len(segmented_frames)] masks.  When all the pairs can be read (and the
    masks fit their frames), it ends normally, having read the first frame
    once to open the writer and then exactly the [len(segmented_frames)]
    pairs, and written one frame for each. *)
Theorem surplus_masks_ignored name frames masks fps od cb ps :
  length frames < length masks ->
  run name frames masks fps od cb (mkWorld ps []) =
  run name frames (firstn (length frames) masks) fps od cb (mkWorld ps [])
  /\
  (all_decodable imread frames masks (length frames) ->
   masks_fit imread frames masks ->
   let res := run name frames masks fps od cb (mkWorld ps []) in
   fst res = inr tt /\
   length (written (trace (snd res))) = length frames /\
   skipped (trace (snd res)) = [] /\
   reads (trace (snd res)) =
     firstn 1 frames
     ++ flat_map (fun p => [fst p; snd p]) (combine frames masks)).
Proof.
  intros Hlen. split.
  - destruct frames as [|p0 rest].
    + rewrite !run_empty. reflexivity.
    + destruct (imread p0) as [f0|] eqn:H0.
      * rewrite (run_streaming name (p0 :: rest) masks fps od cb _ p0 f0
                   eq_refl H0).
        rewrite (run_streaming name (p0 :: rest) _ fps od cb _ p0 f0
                   eq_refl H0).
        rewrite lres_firstn. reflexivity.
      * rewrite !(run_first_unreadable name p0 rest _ fps od cb _ H0).
        reflexivity.
  - intros Hall Hfit res.
    destruct frames as [|p0 rest].
    + unfold res. rewrite run_empty. cbn [fst snd trace].
      unfold written, skipped, reads.
      rewrite !flat_map_app, !flat_map_after_makedirs by reflexivity.
      repeat split; reflexivity.
    + set (frames := p0 :: rest) in *.
      assert (Hd0 : dec frames masks 0 = true)
        by (apply Hall; simpl; lia).
      assert (exists f0, imread p0 = Some f0) as [f0 H0].
      { unfold decodable in Hd0. simpl in Hd0.
        destruct masks as [|pm ms]; [discriminate|].
        destruct (imread p0) as [f0|]; [|discriminate].
        exists f0. reflexivity. }
      destruct (complete_run name frames masks fps od cb ps p0 f0
                  eq_refl H0 (Nat.lt_le_incl _ _ Hlen) Hfit)
        as (Hr & Hw & Hs & _).
      fold res in Hr, Hw, Hs.
      assert (Hclean : forall i, In i (seq 0 (length frames)) ->
                fst (pres name frames masks cb 1%Z 256%Z i) = None).
      { intros i Hi. apply in_seq in Hi.
        apply pres_clean; [lia | lia | exact Hfit]. }
      split; [exact Hr|]. split; [|split].
      * rewrite <- (length_map Some), Hw, length_map.
        rewrite filter_all, length_seq; [reflexivity|].
        intros i Hi. apply in_seq in Hi. apply Hall. lia.
      * rewrite Hs.
        assert (Hnone : forall l,
                  (forall i, In i l -> dec frames masks i = true) ->
                  filter (fun i => negb (dec frames masks i)) l = []).
        { induction l as [|x l IH]; intros H; simpl; [reflexivity|].
          rewrite (H x (or_introl eq_refl)). simpl.
          apply IH. intros y Hy. apply H. right. exact Hy. }
        apply Hnone. intros i Hi. apply in_seq in Hi. apply Hall. lia.
      * unfold res.
        rewrite (run_streaming name frames masks fps od cb _ p0 f0
                   eq_refl H0).
        rewrite (lres_clean name frames masks cb 1%Z 256%Z _ Hclean).
        cbn [fst snd trace epilogue].
        unfold reads.
        rewrite !flat_map_app, flat_map_after_makedirs by reflexivity.
        rewrite flat_map_flat_map.
        rewrite (flat_map_ext_in _ (pair_paths frames masks)).
        2:{ intros i Hi. pose proof (Hclean i Hi) as Hc.
            apply in_seq in Hi.
            destruct (nth_error_in_range frames i) as [pf Epf]; [lia|].
            destruct (nth_error_in_range masks i) as [pm Epm]; [lia|].
            unfold pair_paths. rewrite Epf, Epm.
            apply (reads_pres name frames masks cb 1%Z 256%Z i pf pm
                     Epf Epm Hc). }
        rewrite pair_paths_combine by lia.
        cbn [flat_map app]. rewrite app_nil_r. reflexivity.
Qed.

(** *** What else every run does, and never does *)


(** An iteration whose mask fits its frame, or whose pair cannot be read,
    raises nothing. *)
Lemma pres_clean_at name frames masks cb lo hi i :
i < length frames -> i < length masks ->
(forall pf pm f m,
   nth_error frames i = Some pf -> nth_error masks i = Some pm ->
   imread pf = Some f -> imread pm = Some m -> shape m = shape f) ->
fst (pres name frames masks cb lo hi i) = None.
Proof.
intros Hf Hm Hfit. unfold pair_result.
destruct (nth_error_in_range frames i Hf) as [pf Epf].
destruct (nth_error_in_range masks i Hm) as [pm Epm].
rewrite Epf, Epm.
destruct (imread pf) as [f|] eqn:Ef; [|reflexivity].
destruct (imread pm) as [m|] eqn:Em; [|reflexivity].
destruct (overlay_fits f m lo hi (Hfit pf pm f m Epf Epm Ef Em))
  as (img & Ho & _).
rewrite Ho. reflexivity.
Qed.

(** An iteration whose mask cannot be broadcast onto its frame raises. *)
Lemma pres_value_error name frames masks cb lo hi i pf pm f m :
nth_error frames i = Some pf -> nth_error masks i = Some pm ->
imread pf = Some f -> imread pm = Some m ->
broadcastable (shape m) (shape f) = false ->
pres name frames masks cb lo hi i =
(Some ValueError, [EvImread pf; EvImread pm]).
Proof.
intros Epf Epm Ef Em Hb. unfold pair_result.
rewrite Epf, Epm, Ef, Em.
destruct (overlay_value_error f (Canny m lo hi)) as [Hraise _].
rewrite Canny_shape in Hraise. rewrite (Hraise Hb). reflexivity.
Qed.

(** When a readable pair has a mask that numpy cannot broadcast onto the
    frame (and the earlier masks fit their frames), the run is aborted by
    the ValueError of [np.where] at that pair: the frames of the readable
    pairs before it have been written, nothing is written for it or after
    it, and the video writer is not released. *)
Theorem misfit_mask_aborts name frames masks fps od cb ps p0 f0 i pf pm f m :
nth_error frames 0 = Some p0 ->
imread p0 = Some f0 ->
nth_error frames i = Some pf -> nth_error masks i = Some pm ->
imread pf = Some f -> imread pm = Some m ->
broadcastable (shape m) (shape f) = false ->
(forall j pf' pm' f' m', j < i ->
   nth_error frames j = Some pf' -> nth_error masks j = Some pm' ->
   imread pf' = Some f' -> imread pm' = Some m' -> shape m' = shape f') ->
let res := run name frames masks fps od cb (mkWorld ps []) in
fst res = inl ValueError /\
map Some (written (trace (snd res))) =
  map (cont frames masks 1%Z 256%Z)
      (filter (dec frames masks) (seq 0 i)) /\
releases (trace (snd res)) = 0.
Proof.
intros Hp0 H0 Epf Epm Ef Em Hb Hfit res.
assert (Hi : i < length frames)
  by (apply nth_error_Some; rewrite Epf; discriminate).
assert (Him : i < length masks)
  by (apply nth_error_Some; rewrite Epm; discriminate).
assert (Hseq : seq 0 (length frames) =
               seq 0 i ++ i :: seq (S i) (length frames - S i)).
{ replace (length frames) with (i + S (length frames - S i)) at 1 by lia.
  rewrite seq_app. reflexivity. }
assert (Hclean : forall j, In j (seq 0 i) ->
          fst (pres name frames masks cb 1%Z 256%Z j) = None).
{ intros j Hj. apply in_seq in Hj.
  apply pres_clean_at; [lia | lia |].
  intros pf' pm' f' m'. apply Hfit. lia. }
pose proof (pres_value_error name frames masks cb 1%Z 256%Z i pf pm f m
              Epf Epm Ef Em Hb) as Hpr.
assert (Hl : lres name frames masks cb 1%Z 256%Z (seq 0 (length frames)) =
             (Some ValueError,
              flat_map (fun j => snd (pres name frames masks cb 1%Z 256%Z j))
                       (seq 0 i) ++ [EvImread pf; EvImread pm])).
{ rewrite Hseq.
  rewrite (lres_stop name frames masks cb 1%Z 256%Z (seq 0 i) i _
             ValueError Hclean) by (rewrite Hpr; reflexivity).
  rewrite Hpr. reflexivity. }
pose proof (releases_lres name frames masks cb 1%Z 256%Z
              (seq 0 (length frames))) as Hrl.
unfold res.
rewrite (run_streaming name frames masks fps od cb _ p0 f0 Hp0 H0).
rewrite Hl in *. cbn [fst snd trace epilogue outcome] in *.
split; [reflexivity|]. split.
- unfold written.
  rewrite !flat_map_app, flat_map_after_makedirs by reflexivity.
  rewrite flat_map_flat_map.
  rewrite (flat_map_ext _ (fun j => olist (cont frames masks 1%Z 256%Z j)))
    by (intros j; apply (written_pres name frames masks cb)).
  cbn [flat_map app]. rewrite !app_nil_r.
  apply written_clean with (name := name) (cb := cb). exact Hclean.
- rewrite releases_app, releases_after_makedirs.
  rewrite (releases_app [_; _]).
  rewrite (releases_app _ []), Hrl. reflexivity.
Qed.

(** What the loop has done when the function is left, whatever the way. *)
Lemma run_prefix name frames masks fps od cb ps :
let res := run name frames masks fps od cb (mkWorld ps []) in
exists k,
  k <= length frames /\
  progress_values (trace (snd res)) =
    (if cb
     then map (fun i => i + 1) (filter (dec frames masks) (seq 0 k))
     else []) /\
  map Some (written (trace (snd res))) =
    map (cont frames masks 1%Z 256%Z)
        (filter (dec frames masks) (seq 0 k)) /\
  skipped (trace (snd res)) =
    filter (fun i => negb (dec frames masks i)) (seq 0 k) /\
  (fst res = inr tt -> writers (trace (snd res)) <> [] ->
   k = length frames).
Proof.
intros res. unfold res.
destruct frames as [|p0 rest].
- rewrite run_empty. cbn [fst snd trace].
  exists 0. split; [lia|].
  unfold progress_values, written, skipped.
  rewrite !flat_map_app, !flat_map_after_makedirs by reflexivity.
  simpl. repeat split; try reflexivity; destruct cb; reflexivity.
- destruct (imread p0) as [f0|] eqn:H0.
  + rewrite (run_streaming name (p0 :: rest) masks fps od cb _ p0 f0
               eq_refl H0).
    destruct (lres_prefix name (p0 :: rest) masks cb 1%Z 256%Z
                (length (p0 :: rest)) 0)
      as (k & Hk & Hfull & Hclean & Hw & Hp & Hs).
    destruct (lres name (p0 :: rest) masks cb 1%Z 256%Z
                (seq 0 (length (p0 :: rest)))) as [r evs].
    cbn [fst snd trace] in *.
    exists k. split; [exact Hk|].
    split.
    { unfold progress_values in *.
      rewrite !flat_map_app, flat_map_after_makedirs by reflexivity.
      rewrite Hp. destruct r; cbn [epilogue flat_map app];
        rewrite app_nil_r; reflexivity. }
    split.
    { unfold written in *.
      rewrite !flat_map_app, flat_map_after_makedirs by reflexivity.
      rewrite Hw.
      replace (flat_map _ (epilogue _ _ r)) with (@nil image)
        by (destruct r; reflexivity).
      cbn [flat_map app]. rewrite app_nil_r.
      apply written_clean with (name := name) (cb := cb). exact Hclean. }
    split.
    { unfold skipped in *.
      rewrite !flat_map_app, flat_map_after_makedirs by reflexivity.
      rewrite Hs.
      replace (flat_map _ (epilogue _ _ r)) with (@nil nat)
        by (destruct r; reflexivity).
      cbn [flat_map app]. rewrite app_nil_r. reflexivity. }
    intros Hr _. destruct r as [e|]; [discriminate Hr|].
    apply Hfull. reflexivity.
  + rewrite (run_first_unreadable name p0 rest masks fps od cb _ H0).
    cbn [fst snd trace].
    exists 0. split; [lia|].
    unfold progress_values, written, skipped, writers.
    rewrite !flat_map_app, !flat_map_after_makedirs by reflexivity.
    simpl. split; [destruct cb; reflexivity|].
    split; [reflexivity|]. split; [reflexivity|].
    intros _ Hne. exfalso. apply Hne. reflexivity.
Qed.

(** With fewer masks than frames the loop is left by the out-of-range
    fault at the first index without a mask. *)
Lemma run_short_masks name frames masks fps od cb ps p0 f0 :
length masks < length frames ->
nth_error frames 0 = Some p0 ->
imread p0 = Some f0 ->
masks_fit imread frames masks ->
fst (run name frames masks fps od cb (mkWorld ps [])) =
inl (IndexError (length masks)).
Proof.
intros Hlen Hp0 H0 Hfit.
set (L := length masks) in *.
assert (Hseq : seq 0 (length frames) =
               seq 0 L ++ L :: seq (S L) (length frames - S L)).
{ replace (length frames) with (L + S (length frames - S L)) at 1 by lia.
  rewrite seq_app. reflexivity. }
assert (Hclean : forall i, In i (seq 0 L) ->
          fst (pres name frames masks cb 1%Z 256%Z i) = None).
{ intros i Hi. apply in_seq in Hi.
  apply pres_clean; [lia | fold L; lia | exact Hfit]. }
destruct (pres_index_error name frames masks cb 1%Z 256%Z L)
  as (pf & Epf & Hpr); [lia | fold L; lia |].
rewrite (run_streaming name frames masks fps od cb _ p0 f0 Hp0 H0).
rewrite Hseq.
rewrite (lres_stop name frames masks cb 1%Z 256%Z (seq 0 L) L _
           (IndexError L) Hclean) by (rewrite Hpr; reflexivity).
reflexivity.
Qed.

Lemma contoured_uint8 frames masks lo hi i img :
cont frames masks lo hi i = Some img -> uint8_image img.
Proof.
unfold contoured.
destruct (nth_error frames i) as [pf|]; [|discriminate].
destruct (nth_error masks i) as [pm|]; [|discriminate].
destruct (imread pf) as [f|]; [|discriminate].
destruct (imread pm) as [m|]; [|discriminate].
destruct (overlay f (Canny m lo hi)) as [e|out] eqn:Ho; [discriminate|].
intros H. inversion H. subst out. exact (overlay_uint8 _ _ _ Ho).
Qed.

(** Every frame handed to the video writer, in any run, is an 8-bit image:
    all its channel values lie in [0, 255]. *)
Theorem written_frames_are_uint8 name frames masks fps od cb ps :
Forall uint8_image
  (written (trace (snd (run name frames masks fps od cb (mkWorld ps []))))).
Proof.
destruct (run_prefix name frames masks fps od cb ps)
  as (k & _ & _ & Hw & _ & _).
apply Forall_forall. intros img Hin.
assert (Hs : In (Some img)
               (map (cont frames masks 1%Z 256%Z)
                    (filter (dec frames masks) (seq 0 k)))).
{ rewrite <- Hw. apply in_map. exact Hin. }
apply in_map_iff in Hs. destruct Hs as (i & Hc & _).
exact (contoured_uint8 _ _ _ _ _ _ Hc).
Qed.

Lemma sorted_progress (p : nat -> bool) :
forall k a,
  StronglySorted lt (map (fun i => i + 1) (filter p (seq a k))).
Proof.
induction k as [|k IH]; intros a; simpl; [constructor|].
destruct (p a); [|apply IH].
simpl. constructor; [apply IH|].
apply Forall_forall. intros n Hn.
apply in_map_iff in Hn. destruct Hn as (i & <- & Hi).
apply filter_In in Hi. destruct Hi as [Hi _].
apply in_seq in Hi. lia.
Qed.

(** In any run the frames written and the pairs skipped are together at
    most the frames given; a progress callback is called once per frame
    written, with values that increase strictly and lie between 1 and the
    number of frames. *)
Theorem counts_and_progress name frames masks fps od cb ps :
let res := run name frames masks fps od cb (mkWorld ps []) in
length (written (trace (snd res))) + length (skipped (trace (snd res)))
  <= length frames /\
(cb = true ->
 length (progress_values (trace (snd res)))
 = length (written (trace (snd res)))) /\
(cb = false -> progress_values (trace (snd res)) = []) /\
Forall (fun n => 1 <= n <= length frames)
       (progress_values (trace (snd res))) /\
StronglySorted lt (progress_values (trace (snd res))).
Proof.
intros res.
destruct (run_prefix name frames masks fps od cb ps)
  as (k & Hk & Hp & Hw & Hs & _).
fold res in Hp, Hw, Hs.
split.
{ rewrite <- (length_map Some), Hw, length_map, Hs.
  rewrite filter_length, length_seq. exact Hk. }
split.
{ intros ->. rewrite Hp, <- (length_map Some (written _)), Hw.
  rewrite !length_map. reflexivity. }
split.
{ intros ->. exact Hp. }
rewrite Hp. destruct cb; [|split; constructor].
split; [|apply sorted_progress].
apply Forall_forall. intros n Hn.
apply in_map_iff in Hn. destruct Hn as (i & <- & Hi).
apply filter_In in Hi. destruct Hi as [Hi _].
apply in_seq in Hi. lia.
Qed.

(** In any run at most one video writer is opened, and frames are written
    only after it has been opened and before it is released: the calls fall
    into those before the loop, those of the loop and those after it, with
    no write outside the loop and no opening or release inside it. *)
Theorem frames_written_between_open_and_release name frames masks fps od cb
  ps :
let res := run name frames masks fps od cb (mkWorld ps []) in
exists before loop after,
  trace (snd res) = before ++ loop ++ after /\
  written before = [] /\ releases before = 0 /\
  writers loop = [] /\ releases loop = 0 /\
  written after = [] /\ writers after = [] /\
  (written loop <> [] -> exists p sz, writers before = [(p, sz)]) /\
  (releases after = 1 <-> (fst res = inr tt /\ writers before <> [])) /\
  length (writers (trace (snd res))) <= 1.
Proof.
intros res. unfold res.
destruct frames as [|p0 rest].
- rewrite run_empty. cbn [fst snd trace].
  exists (trace (after_makedirs (output_dir_of od) (mkWorld ps []))
          ++ [EvPrint (NoSegmentedFrames name)]), [], [].
  rewrite !app_nil_r.
  assert (Hw : writers (trace (after_makedirs (output_dir_of od)
                           (mkWorld ps []))
                        ++ [EvPrint (NoSegmentedFrames name)]) = []).
  { unfold writers.
    rewrite flat_map_app, flat_map_after_makedirs by reflexivity.
    reflexivity. }
  rewrite Hw.
  split; [reflexivity|]. split.
  { unfold written.
    rewrite flat_map_app, flat_map_after_makedirs by reflexivity.
    reflexivity. }
  split.
  { rewrite releases_app, releases_after_makedirs. reflexivity. }
  repeat split; try reflexivity; try discriminate; simpl; try lia.
  + intros H. exfalso. apply H. reflexivity.
  + intros [_ H]. exfalso. apply H. reflexivity.
- destruct (imread p0) as [f0|] eqn:H0.
  + rewrite (run_streaming name (p0 :: rest) masks fps od cb _ p0 f0
               eq_refl H0).
    pose proof (writers_lres name (p0 :: rest) masks cb 1%Z 256%Z
                  (seq 0 (length (p0 :: rest)))) as Hwl.
    pose proof (releases_lres name (p0 :: rest) masks cb 1%Z 256%Z
                  (seq 0 (length (p0 :: rest)))) as Hrl.
    destruct (lres name (p0 :: rest) masks cb 1%Z 256%Z
                (seq 0 (length (p0 :: rest)))) as [r evs].
    cbn [fst snd trace] in *.
    set (open_ev := EvVideoWriter (output_path_of od name)
                      (VideoWriter_fourcc "m" "p" "4" "v") fps
                      (snd (shape f0), fst (shape f0))).
    exists (trace (after_makedirs (output_dir_of od) (mkWorld ps []))
            ++ [EvImread p0; open_ev]),
           evs, (epilogue name (output_path_of od name) r).
    assert (Hwb : writers
                    (trace (after_makedirs (output_dir_of od) (mkWorld ps []))
                     ++ [EvImread p0; open_ev]) =
                  [(output_path_of od name,
                    (snd (shape f0), fst (shape f0)))]).
    { unfold writers.
      rewrite flat_map_app, flat_map_after_makedirs by reflexivity.
      reflexivity. }
    split; [rewrite <- !app_assoc; reflexivity|].
    split.
    { unfold written.
      rewrite flat_map_app, flat_map_after_makedirs by reflexivity.
      reflexivity. }
    split.
    { rewrite releases_app, releases_after_makedirs. reflexivity. }
    split; [exact Hwl|]. split; [exact Hrl|].
    split; [destruct r; reflexivity|].
    split; [destruct r; reflexivity|].
    split.
    { intros _. eexists. eexists. exact Hwb. }
    split.
    { rewrite Hwb. destruct r as [e|]; cbn [epilogue outcome]; split.
      - intros H. discriminate H.
      - intros [H _]. discriminate H.
      - intros _. split; [reflexivity | discriminate].
      - intros _. reflexivity. }
    unfold writers in *.
    rewrite !flat_map_app, flat_map_after_makedirs by reflexivity.
    rewrite Hwl. destruct r; simpl; lia.
  + rewrite (run_first_unreadable name p0 rest masks fps od cb _ H0).
    cbn [fst snd trace].
    exists (trace (after_makedirs (output_dir_of od) (mkWorld ps []))
            ++ [EvImread p0; EvPrint (FailedFirstFrame name p0)]), [], [].
    rewrite !app_nil_r.
    assert (Hw : writers (trace (after_makedirs (output_dir_of od)
                             (mkWorld ps []))
                          ++ [EvImread p0;
                              EvPrint (FailedFirstFrame name p0)]) = []).
    { unfold writers.
      rewrite flat_map_app, flat_map_after_makedirs by reflexivity.
      reflexivity. }
    rewrite Hw.
    split; [reflexivity|]. split.
    { unfold written.
      rewrite flat_map_app, flat_map_after_makedirs by reflexivity.
      reflexivity. }
    split.
    { rewrite releases_app, releases_after_makedirs. reflexivity. }
    repeat split; try reflexivity; try discriminate; simpl; try lia.
    * intros H. exfalso. apply H. reflexivity.
    * intros [_ H]. exfalso. apply H. reflexivity.
Qed.

(** A run creates nothing but the output directory, directories above it
    and the output file: every path that exists afterwards existed before,
    is the output file, or is a beginning of the output directory's name
    (the directory itself or one above it). *)
Theorem only_directory_and_file_created name frames masks fps od cb ps :
forall p,
  In p (paths (snd (run name frames masks fps od cb (mkWorld ps [])))) ->
  In p ps \/
  (exists rest, output_dir_of od = (p ++ rest)%string) \/
  p = output_path_of od name.
Proof.
intros p.
assert (Hdir : forall q,
          In q (paths (after_makedirs (output_dir_of od) (mkWorld ps []))) ->
          In q ps \/ exists rest, output_dir_of od = (q ++ rest)%string).
{ intros q H. apply paths_after_makedirs in H. exact H. }
destruct frames as [|p0 rest].
- rewrite run_empty. cbn [snd paths]. intros H.
  destruct (Hdir p H) as [H' | H']; [left | right; left]; exact H'.
- destruct (imread p0) as [f0|] eqn:H0.
  + rewrite (run_streaming name (p0 :: rest) masks fps od cb _ p0 f0
               eq_refl H0).
    cbn [snd paths]. intros H. apply in_app_or in H.
    destruct H as [H | H].
    * destruct (Hdir p H) as [H' | H']; [left | right; left]; exact H'.
    * right. right.
      destruct (writer_opens _ _ _ _); [|destruct H].
      destruct H as [H | []]. symmetry. exact H.
  + rewrite (run_first_unreadable name p0 rest masks fps od cb _ H0).
    cbn [snd paths]. intros H.
    destruct (Hdir p H) as [H' | H']; [left | right; left]; exact H'.
Qed.

Lemma saved_pres name frames masks cb lo hi i :
saved (snd (pres name frames masks cb lo hi i)) = [].
Proof.
unfold pair_result.
destruct (nth_error frames i) as [pf|]; [|reflexivity].
destruct (nth_error masks i) as [pm|]; [|reflexivity].
destruct (imread pf) as [f|]; [|reflexivity].
destruct (imread pm) as [m|]; [|reflexivity].
destruct (overlay f (Canny m lo hi)) as [e|img]; [reflexivity|].
destruct cb; reflexivity.
Qed.

Lemma saved_lres name frames masks cb lo hi indices :
saved (snd (lres name frames masks cb lo hi indices)) = [].
Proof.
induction indices as [|i rest IH]; simpl; [reflexivity|].
pose proof (saved_pres name frames masks cb lo hi i) as Hi.
destruct (pres name frames masks cb lo hi i) as [[e|] evs]; simpl in *.
- exact Hi.
- destruct (lres name frames masks cb lo hi rest) as [r evs']. simpl in *.
  unfold saved in *. rewrite flat_map_app, Hi, IH. reflexivity.
Qed.

(** "Video saved at: <path>" is printed exactly when the video writer was
    opened and the loop came to its end, whatever the number of frames
    written: also when every pair was skipped and the video is empty. *)
Theorem video_saved_reported name frames masks fps od cb ps :
let res := run name frames masks fps od cb (mkWorld ps []) in
(fst res = inr tt -> writers (trace (snd res)) <> [] ->
 saved (trace (snd res)) = [(name, output_path_of od name)]) /\
(saved (trace (snd res)) <> [] ->
 fst res = inr tt /\ writers (trace (snd res)) <> []) /\
(skipped (trace (snd res)) = seq 0 (length frames) ->
 frames <> [] ->
 written (trace (snd res)) = [] /\
 saved (trace (snd res)) = [(name, output_path_of od name)]).
Proof.
intros res. unfold res.
destruct frames as [|p0 rest].
- rewrite run_empty. cbn [fst snd trace].
  unfold saved, writers, skipped, written.
  rewrite !flat_map_app, !flat_map_after_makedirs by reflexivity.
  cbn. split; [|split].
  + intros _ H. exfalso. apply H. reflexivity.
  + intros H. exfalso. apply H. reflexivity.
  + intros _ H. exfalso. apply H. reflexivity.
- destruct (imread p0) as [f0|] eqn:H0.
  + rewrite (run_streaming name (p0 :: rest) masks fps od cb _ p0 f0
               eq_refl H0).
    pose proof (saved_lres name (p0 :: rest) masks cb 1%Z 256%Z
                  (seq 0 (length (p0 :: rest)))) as Hsl.
    pose proof (writers_lres name (p0 :: rest) masks cb 1%Z 256%Z
                  (seq 0 (length (p0 :: rest)))) as Hwl.
    destruct (lres_prefix name (p0 :: rest) masks cb 1%Z 256%Z
                (length (p0 :: rest)) 0)
      as (k & Hk & _ & Hclean & Hw & _ & Hs).
    pose proof (lres_clean name (p0 :: rest) masks cb 1%Z 256%Z (seq 0 k)
                  Hclean) as Hlc.
    set (frames := p0 :: rest) in *.
    destruct (lres name frames masks cb 1%Z 256%Z (seq 0 (length frames)))
      as [r evs] eqn:Hl.
    cbn [fst snd trace] in *.
    assert (Hsaved : saved
              (trace (after_makedirs (output_dir_of od) (mkWorld ps []))
               ++ [EvImread p0;
                   EvVideoWriter (output_path_of od name)
                     (VideoWriter_fourcc "m" "p" "4" "v") fps
                     (snd (shape f0), fst (shape f0))]
               ++ evs ++ epilogue name (output_path_of od name) r) =
            match r with
            | None => [(name, output_path_of od name)]
            | Some _ => []
            end).
    { unfold saved in *.
      rewrite !flat_map_app, flat_map_after_makedirs by reflexivity.
      rewrite Hsl. destruct r; reflexivity. }
    rewrite Hsaved.
    split; [|split].
    * intros Hr _. destruct r; [discriminate Hr | reflexivity].
    * intros Hne. destruct r as [e|]; [exfalso; apply Hne; reflexivity|].
      split; [reflexivity|].
      unfold writers.
      rewrite !flat_map_app, flat_map_after_makedirs by reflexivity.
      discriminate.
    * intros Hall _.
      assert (Hsk : skipped evs = seq 0 (length frames)).
      { rewrite <- Hall. unfold skipped.
        rewrite !flat_map_app, flat_map_after_makedirs by reflexivity.
        destruct r; cbn [epilogue flat_map app];
          rewrite ?app_nil_r; reflexivity. }
      assert (Hkn : k = length frames).
      { assert (Hlen : length (skipped evs) = length frames)
          by (rewrite Hsk, length_seq; reflexivity).
        rewrite Hs in Hlen.
        pose proof (filter_length_le
                      (fun i => negb (dec frames masks i)) (seq 0 k)) as Hle.
        rewrite length_seq in Hle. lia. }
      subst k.
      assert (Hr : r = None) by (rewrite Hl in Hlc; congruence).
      subst r. clear Hlc.
      split; [|reflexivity].
      assert (Hnone : flat_map (fun i => olist (cont frames masks 1%Z 256%Z i))
                        (seq 0 (length frames)) = []).
      { pose proof (written_clean name frames masks cb 1%Z 256%Z
                      (seq 0 (length frames)) Hclean) as Hwc.
        pose proof (filter_length (dec frames masks) (seq 0 (length frames)))
          as Hfl.
        rewrite <- Hs, Hsk, !length_seq in Hfl.
        destruct (filter (dec frames masks) (seq 0 (length frames)));
          [|simpl in Hfl; lia].
        cbn [map] in Hwc.
        destruct (flat_map (fun i => olist (cont frames masks 1%Z 256%Z i))
                    (seq 0 (length frames)));
          [reflexivity | discriminate Hwc]. }
      unfold written in *.
      rewrite !flat_map_app, flat_map_after_makedirs by reflexivity.
      rewrite Hw, Hnone. reflexivity.
  + rewrite (run_first_unreadable name p0 rest masks fps od cb _ H0).
    cbn [fst snd trace].
    unfold saved, writers, skipped, written.
    rewrite !flat_map_app, !flat_map_after_makedirs by reflexivity.
    cbn. split; [|split].
    * intros _ H. exfalso. apply H. reflexivity.
    * intros H. exfalso. apply H. reflexivity.
    * intros H _. discriminate H.
Qed.

End Properties.
Lemma overlay_rule_witness :
  exists out,
    overlay demo_frame demo_edges = inr out /\
    shape out = shape demo_frame /\
    forall r c, r < fst (shape demo_frame) -> c < snd (shape demo_frame) ->
      (edge_at demo_edges r c = true -> get black out r c = white) /\
      (edge_at demo_edges r c = false ->
         get black out r c = get black demo_frame r c) /\
      (get black out r c = white <->
         edge_at demo_edges r c = true \/ get black demo_frame r c = white).
Proof.
  apply (overlay_rule demo_frame demo_edges).
  - reflexivity.
  - unfold demo_frame, uint8_image, uint8_pixel, uint8.
    repeat constructor; lia.
Defined.

(** C6 (as stated) fails: where the frame's own pixel is white and the edge
    map marks nothing, the output is pure white at a position that is not an
    edge. *)
Lemma overlay_white_not_only_edges :
  let original_image : image := [[(255, 255, 255)%Z]] in
  let edges : array2 Z := [[0%Z]] in
  shape edges = shape original_image /\
  exists out,
    overlay original_image edges = inr out /\
    get black out 0 0 = white /\
    edge_at edges 0 0 = false /\
    ~ (get black out 0 0 = white <-> edge_at edges 0 0 = true).
Proof.
  simpl. split; [reflexivity|].
  eexists. split; [reflexivity|].
  split; [reflexivity|]. split; [reflexivity|].
  intros [H _]. specialize (H eq_refl). discriminate H.
Qed.


(** ** The theorems at work on the small set of files *)

Lemma flat_Canny_shape (m : image) (lo hi : Z) :
  shape (flat_Canny m lo hi) = shape m.
Proof. apply shape_map_map. Qed.

(** Settles [masks_fit] and [uniform] on explicit lists of locations. *)
Ltac by_cases_on_index i Epf Epm :=
  lazymatch type of Epf with
  | nth_error [] _ = Some _ => destruct i; discriminate Epf
  | _ =>
      lazymatch type of Epm with
      | nth_error [] _ = Some _ => destruct i; discriminate Epm
      | _ =>
          destruct i as [|i]; simpl in Epf, Epm;
          [ inversion Epf; inversion Epm; subst
          | by_cases_on_index i Epf Epm ]
      end
  end.

Ltac solve_fit :=
  let i := fresh "i" in
  let Epf := fresh "Epf" in
  let Epm := fresh "Epm" in
  let Ef := fresh "Ef" in
  let Em := fresh "Em" in
  intros i ? ? ? ? Epf Epm Ef Em;
  cbv delta [demo_frames demo_masks mixed_frames mixed_masks] in Epf, Epm;
  by_cases_on_index i Epf Epm;
  vm_compute in Ef, Em; try discriminate;
  inversion Ef; inversion Em; reflexivity.

Ltac solve_uniform :=
  let i := fresh "i" in
  let Epf := fresh "Epf" in
  let Epm := fresh "Epm" in
  intros i ? ? Epf Epm;
  cbv delta [demo_frames demo_masks mixed_frames mixed_masks] in Epf, Epm;
  by_cases_on_index i Epf Epm;
  eexists; eexists; repeat split; reflexivity.

Lemma every_pair_written_witness :
  uniform disk demo_frames demo_masks (shape frame2x2) /\
  let res := ContouredVideoProduction disk flat_Canny demo_writer_opens "vid"
               demo_frames demo_masks 24%Z (Some "out") true (mkWorld [] []) in
  fst res = inr tt /\
  writers (trace (snd res)) =
    [(output_path_of (Some "out") "vid",
      (snd (shape frame2x2), fst (shape frame2x2)))] /\
  length (written (trace (snd res))) = length demo_frames /\
  forall i, i < length demo_frames ->
    exists img,
      contoured disk flat_Canny demo_frames demo_masks 1%Z 256%Z i = Some img /\
      nth_error (written (trace (snd res))) i = Some img /\
      shape img = shape frame2x2.
Proof.
  assert (Hu : uniform disk demo_frames demo_masks (shape frame2x2))
    by solve_uniform.
  split; [exact Hu|].
  apply (every_pair_written disk flat_Canny demo_writer_opens flat_Canny_shape
      "vid"
           demo_frames demo_masks 24%Z (Some "out") true [] "f0.jpg" frame2x2).
  - reflexivity.
  - reflexivity.
  - simpl. lia.
  - exact Hu.
Defined.

(** C1 (as stated) fails: every location decodes, the mask list is as long
    as the frame list, and the second frame handed to the writer is 1x1
    where the first decoded frame is 2x2. *)
Lemma written_frame_of_other_size :
  let frames := ["f0.jpg"; "small.jpg"] in
  let masks := ["m0.png"; "small.png"] in
  let res := ContouredVideoProduction disk flat_Canny demo_writer_opens "vid"
               frames masks 24%Z (Some "out") true (mkWorld [] []) in
  frames <> [] /\ length frames <= length masks /\
  (forall p, In p (frames ++ masks) -> disk p <> None) /\
  disk "f0.jpg" = Some frame2x2 /\
  map shape (written (trace (snd res))) = [(2, 2); (1, 1)] /\
  ~ Forall (fun img => shape img = shape frame2x2) (written (trace (snd res))).
Proof.
  cbv zeta. split; [discriminate|]. split; [simpl; lia|].
  split.
  { intros p Hp. simpl in Hp.
    repeat (destruct Hp as [Hp | Hp]; [subst p; discriminate|]).
    destruct Hp. }
  split; [reflexivity|]. split; [reflexivity|].
  intros H. vm_compute in H.
  inversion H as [|x l _ H1]. inversion H1 as [|y l' Hy _].
  discriminate Hy.
Qed.

Lemma unreadable_pairs_skipped_witness :
  masks_fit corrupt_disk demo_frames demo_masks /\
  let res := ContouredVideoProduction corrupt_disk flat_Canny demo_writer_opens
      "vid"
               demo_frames demo_masks 24%Z (Some "out") true (mkWorld [] []) in
  let unreadable :=
    filter (fun i => negb (decodable corrupt_disk demo_frames demo_masks i))
           (seq 0 (length demo_frames)) in
  fst res = inr tt /\
  skipped (trace (snd res)) = unreadable /\
  map Some (written (trace (snd res))) =
    map (contoured corrupt_disk flat_Canny demo_frames demo_masks 1%Z 256%Z)
        (filter (decodable corrupt_disk demo_frames demo_masks)
                (seq 0 (length demo_frames))) /\
  (forall i, i < length demo_frames ->
     decodable corrupt_disk demo_frames demo_masks i = false ->
     In i (skipped (trace (snd res))) /\
     contoured corrupt_disk flat_Canny demo_frames demo_masks 1%Z 256%Z i
       = None) /\
  length (written (trace (snd res))) + length (skipped (trace (snd res)))
    = length demo_frames /\
  (forall k, unreadable = [k] ->
     length (written (trace (snd res))) = length demo_frames - 1 /\
     length (skipped (trace (snd res))) = 1).
Proof.
  assert (Hfit : masks_fit corrupt_disk demo_frames demo_masks) by solve_fit.
  split; [exact Hfit|].
  apply (unreadable_pairs_skipped corrupt_disk flat_Canny demo_writer_opens
      flat_Canny_shape
           "vid" demo_frames demo_masks 24%Z (Some "out") true []
           "f0.jpg" frame2x2).
  - reflexivity.
  - reflexivity.
  - simpl. lia.
  - exact Hfit.
Defined.

(** C2 (as stated) fails: the first frame decodes and the mask "m1.png"
    does not.  With two masks for the three frames the pair 1 is skipped
    and the run is then left by the out-of-range fault at index 2; with
    three masks of which the last is 3x3, the pair 1 is the one pair that
    does not decode, and the run is left at the pair 2 because the mask
    does not fit its frame: one frame has been written, not two.  Neither
    run reaches its normal end. *)
Lemma skipped_pair_then_abort :
  let short := ["m0.png"; "m1.png"] in
  let misfit := ["m0.png"; "m1.png"; "big.png"] in
  let res1 := ContouredVideoProduction corrupt_disk flat_Canny
                demo_writer_opens "vid" demo_frames short 24%Z (Some "out")
                true (mkWorld [] []) in
  let res2 := ContouredVideoProduction corrupt_misfit_disk flat_Canny
                demo_writer_opens "vid" demo_frames misfit 24%Z (Some "out")
                true (mkWorld [] []) in
  corrupt_disk "f0.jpg" = Some frame2x2 /\
  corrupt_disk "m1.png" = None /\
  skipped (trace (snd res1)) = [1] /\
  fst res1 = inl (IndexError 2) /\
  fst res1 <> inr tt /\
  length demo_frames = length misfit /\
  filter (fun i => negb (decodable corrupt_misfit_disk demo_frames misfit i))
         (seq 0 (length demo_frames)) = [1] /\
  skipped (trace (snd res2)) = [1] /\
  fst res2 = inl ValueError /\
  fst res2 <> inr tt /\
  length (written (trace (snd res2))) = 1 /\
  length (written (trace (snd res2))) <> length demo_frames - 1.
Proof.
  cbv zeta. repeat split; try reflexivity; discriminate.
Qed.

Lemma progress_for_written_pairs_witness :
  let res := ContouredVideoProduction corrupt_disk flat_Canny demo_writer_opens
      "vid"
               demo_frames demo_masks 24%Z (Some "out") true (mkWorld [] []) in
  exists k,
    k <= length demo_frames /\
    progress_values (trace (snd res)) =
      map (fun i => i + 1)
          (filter (decodable corrupt_disk demo_frames demo_masks) (seq 0 k)) /\
    map Some (written (trace (snd res))) =
      map (contoured corrupt_disk flat_Canny demo_frames demo_masks 1%Z 256%Z)
          (filter (decodable corrupt_disk demo_frames demo_masks) (seq 0 k)) /\
    skipped (trace (snd res)) =
      filter (fun i => negb (decodable corrupt_disk demo_frames demo_masks i))
             (seq 0 k) /\
    (fst res = inr tt -> writers (trace (snd res)) <> [] ->
     k = length demo_frames).
Proof.
  exact (progress_for_written_pairs corrupt_disk flat_Canny demo_writer_opens
           "vid" demo_frames demo_masks 24%Z (Some "out") true []).
Defined.

(** C3 (as stated) fails: with three pairs and the second mask unreadable,
    the callback receives 1 and 3; it is not called for the skipped pair. *)
Lemma skipped_pair_not_reported :
  let res := ContouredVideoProduction corrupt_disk flat_Canny demo_writer_opens
      "vid"
               demo_frames demo_masks 24%Z (Some "out") true (mkWorld [] []) in
  corrupt_disk "m1.png" = None /\
  fst res = inr tt /\
  skipped (trace (snd res)) = [1] /\
  progress_values (trace (snd res)) = [1; 3] /\
  progress_values (trace (snd res)) <> [1; 2; 3].
Proof.
  cbv zeta. repeat split; try reflexivity. discriminate.
Qed.

Lemma short_mask_list_aborts_witness :
  masks_fit disk demo_frames ["m0.png"] /\
  let res := ContouredVideoProduction disk flat_Canny demo_writer_opens "vid"
               demo_frames ["m0.png"] 24%Z (Some "out") true (mkWorld [] []) in
  fst res = inl (IndexError (length ["m0.png"])) /\
  map Some (written (trace (snd res))) =
    map (contoured disk flat_Canny demo_frames ["m0.png"] 1%Z 256%Z)
        (filter (decodable disk demo_frames ["m0.png"])
                (seq 0 (length ["m0.png"]))) /\
  length (written (trace (snd res))) <= length ["m0.png"] /\
  (all_decodable disk demo_frames ["m0.png"] (length ["m0.png"]) ->
   length (written (trace (snd res))) = length ["m0.png"]).
Proof.
  assert (Hfit : masks_fit disk demo_frames ["m0.png"]) by solve_fit.
  split; [exact Hfit|].
  apply (short_mask_list_aborts disk flat_Canny demo_writer_opens
      flat_Canny_shape "vid"
           demo_frames ["m0.png"] 24%Z (Some "out") true [] "f0.jpg" frame2x2).
  - simpl. lia.
  - reflexivity.
  - reflexivity.
  - exact Hfit.
Defined.

(** C4 (as stated) fails: with the masks "m0.png" and "big.png" for three
    frames, the two pairs before the missing mask decode, and the run is
    left at the pair 1, whose mask of 3x3 does not fit its frame of 2x2,
    with another fault than the out-of-range one and before the index 2
    is reached.  And with no mask at all and a first frame that cannot be
    read, the run returns normally without any fault. *)
Lemma short_mask_list_other_outcome :
  let masks := ["m0.png"; "big.png"] in
  let res1 := ContouredVideoProduction misfit_disk flat_Canny
                demo_writer_opens "vid" demo_frames masks 24%Z (Some "out")
                true (mkWorld [] []) in
  let res2 := ContouredVideoProduction headless_disk flat_Canny
                demo_writer_opens "vid" demo_frames [] 24%Z (Some "out")
                true (mkWorld [] []) in
  length masks < length demo_frames /\
  decodable misfit_disk demo_frames masks 0 = true /\
  decodable misfit_disk demo_frames masks 1 = true /\
  fst res1 = inl ValueError /\
  fst res1 <> inl (IndexError (length masks)) /\
  length (written (trace (snd res1))) = 1 /\
  @length string [] < length demo_frames /\
  fst res2 = inr tt /\
  fst res2 <> inl (IndexError 0).
Proof.
  cbv zeta. repeat split; try reflexivity; try discriminate; simpl; lia.
Qed.

Lemma release_on_completion_only_witness :
  let res := ContouredVideoProduction disk flat_Canny demo_writer_opens "vid"
               demo_frames demo_masks 24%Z (Some "out") true (mkWorld [] []) in
  writers (trace (snd res)) <> [] /\
  (fst res = inr tt -> releases (trace (snd res)) = 1) /\
  (forall e, fst res = inl e -> releases (trace (snd res)) = 0).
Proof.
  cbv zeta.
  assert (Hw : writers (trace (snd (ContouredVideoProduction disk flat_Canny
      demo_writer_opens
                  "vid" demo_frames demo_masks 24%Z (Some "out") true
                  (mkWorld [] [])))) <> []) by (vm_compute; discriminate).
  split; [exact Hw|].
  exact (release_on_completion_only disk flat_Canny demo_writer_opens "vid"
           demo_frames demo_masks 24%Z (Some "out") true [] Hw).
Defined.

(** C5 (as stated) fails: with one mask for three frames the writer has
    been opened, the loop is left by the out-of-range fault at index 1, and
    the writer is never released. *)
Lemma no_release_after_index_error :
  let res := ContouredVideoProduction disk flat_Canny demo_writer_opens "vid"
               demo_frames ["m0.png"] 24%Z (Some "out") true (mkWorld [] []) in
  writers (trace (snd res)) = [("out/Contoured_vid.mp4", (2, 2))] /\
  fst res = inl (IndexError 1) /\
  releases (trace (snd res)) = 0 /\
  releases (trace (snd res)) <> 1.
Proof.
  cbv zeta. repeat split; try reflexivity. discriminate.
Qed.


Lemma other_size_frame_written_witness :
  masks_fit disk mixed_frames mixed_masks /\
  shape frame1x1 <> shape frame2x2 /\
  let res := ContouredVideoProduction disk flat_Canny demo_writer_opens "vid"
      mixed_frames
               mixed_masks 24%Z (Some "out") true (mkWorld [] []) in
  fst res = inr tt /\
  writers (trace (snd res)) =
    [(output_path_of (Some "out") "vid",
      (snd (shape frame2x2), fst (shape frame2x2)))] /\
  exists img,
    overlay frame1x1 (flat_Canny mask1x1 1%Z 256%Z) = inr img /\
    In img (written (trace (snd res))) /\
    shape img = shape frame1x1 /\ shape img <> shape frame2x2.
Proof.
  assert (Hfit : masks_fit disk mixed_frames mixed_masks) by solve_fit.
  assert (Hne : shape frame1x1 <> shape frame2x2) by discriminate.
  split; [exact Hfit|]. split; [exact Hne|].
  apply (other_size_frame_written disk flat_Canny demo_writer_opens
      flat_Canny_shape "vid"
           mixed_frames mixed_masks 24%Z (Some "out") true [] "f0.jpg"
           frame2x2 1 "small.jpg" "small.png" frame1x1 mask1x1).
  - reflexivity.
  - reflexivity.
  - simpl. lia.
  - exact Hfit.
  - reflexivity.
  - reflexivity.
  - reflexivity.
  - reflexivity.
  - exact Hne.
Defined.

(** C8 (as stated) fails: the second frame is 1x1 where the writer was
    opened for 2x2; no exception is raised, the frame is handed to the
    writer, and the run goes on to the third pair and ends normally. *)
Lemma other_size_frame_not_rejected :
  let res := ContouredVideoProduction disk flat_Canny demo_writer_opens "vid"
      mixed_frames
               mixed_masks 24%Z (Some "out") true (mkWorld [] []) in
  disk "f0.jpg" = Some frame2x2 /\ disk "small.jpg" = Some frame1x1 /\
  writers (trace (snd res)) = [("out/Contoured_vid.mp4", (2, 2))] /\
  fst res = inr tt /\
  written (trace (snd res)) = [frame2x2; frame1x1; frame2x2] /\
  progress_values (trace (snd res)) = [1; 2; 3].
Proof.
  cbv zeta. repeat split; reflexivity.
Qed.

Lemma surplus_masks_ignored_witness :
  length ["f0.jpg"; "f1.jpg"] < length demo_masks /\
  (ContouredVideoProduction disk flat_Canny demo_writer_opens "vid" ["f0.jpg";
     "f1.jpg"] demo_masks 24%Z (Some "out") true (mkWorld [] []) =
   ContouredVideoProduction disk flat_Canny demo_writer_opens "vid" ["f0.jpg";
       "f1.jpg"]
     (firstn (length ["f0.jpg"; "f1.jpg"]) demo_masks) 24%Z (Some "out") true
     (mkWorld [] [])) /\
  let res := ContouredVideoProduction disk flat_Canny demo_writer_opens "vid"
               ["f0.jpg"; "f1.jpg"] demo_masks 24%Z (Some "out") true
               (mkWorld [] []) in
  fst res = inr tt /\
  length (written (trace (snd res))) = length ["f0.jpg"; "f1.jpg"] /\
  skipped (trace (snd res)) = [] /\
  reads (trace (snd res)) =
    firstn 1 ["f0.jpg"; "f1.jpg"]
    ++ flat_map (fun p => [fst p; snd p])
         (combine ["f0.jpg"; "f1.jpg"] demo_masks).
Proof.
  assert (Hlen : length ["f0.jpg"; "f1.jpg"] < length demo_masks)
    by (simpl; lia).
  destruct (surplus_masks_ignored disk flat_Canny demo_writer_opens
      flat_Canny_shape "vid"
              ["f0.jpg"; "f1.jpg"] demo_masks 24%Z (Some "out") true [] Hlen)
    as [Heq Hrun].
  split; [exact Hlen|]. split; [exact Heq|].
  apply Hrun.
  - intros i Hi. simpl in Hi.
    destruct i as [|[|i]]; [reflexivity | reflexivity | lia].
  - solve_fit.
Defined.

(** C9 (as stated) fails: with three masks for two frames, all the
    locations of the two pairs decode, and the run does not end normally:
    the mask "big.png" of the pair 1 is 3x3 where its frame is 2x2, and
    the run is left there with one frame written. *)
Lemma surplus_masks_misfit_aborts :
  let frames := ["f0.jpg"; "f1.jpg"] in
  let masks := ["m0.png"; "big.png"; "m2.png"] in
  let res := ContouredVideoProduction misfit_disk flat_Canny
               demo_writer_opens "vid" frames masks 24%Z (Some "out") true
               (mkWorld [] []) in
  length frames < length masks /\
  decodable misfit_disk frames masks 0 = true /\
  decodable misfit_disk frames masks 1 = true /\
  fst res = inl ValueError /\
  fst res <> inr tt /\
  length (written (trace (snd res))) = 1 /\
  releases (trace (snd res)) = 0.
Proof.
  cbv zeta. repeat split; try reflexivity; try discriminate; simpl; lia.
Qed.


(** C10 (as stated) fails: without an output directory and with an empty
    frame list, the default directory is made and the function returns
    normally, but no video writer is opened and no output file is
    written; nor is one when the first frame cannot be read.  And with one
    mask for three frames the writer is opened in the default directory
    and the function then fails with the out-of-range fault. *)
Lemma no_frames_no_default_file :
  let res := ContouredVideoProduction disk flat_Canny demo_writer_opens
               "vid" [] [] 24%Z None true (mkWorld [] []) in
  let res2 := ContouredVideoProduction headless_disk flat_Canny
                demo_writer_opens "vid" demo_frames demo_masks 24%Z None
                true (mkWorld [] []) in
  let res3 := ContouredVideoProduction disk flat_Canny demo_writer_opens
                "vid" demo_frames ["m0.png"] 24%Z None true
                (mkWorld [] []) in
  let file := "Videos/Contoured Videos/Contoured_vid.mp4" in
  output_path_of None "vid" = file /\
  fst res = inr tt /\
  paths (snd res) = ["Videos"; "Videos/Contoured Videos"] /\
  writers (trace (snd res)) = [] /\
  written (trace (snd res)) = [] /\
  ~ In file (paths (snd res)) /\
  headless_disk "f0.jpg" = None /\
  fst res2 = inr tt /\
  writers (trace (snd res2)) = [] /\
  written (trace (snd res2)) = [] /\
  ~ In file (paths (snd res2)) /\
  writers (trace (snd res3)) = [(file, (2, 2))] /\
  fst res3 = inl (IndexError 1).
Proof.
  cbv zeta. repeat split; try reflexivity;
    intros H; vm_compute in H;
    destruct H as [H | [H | []]]; discriminate H.
Qed.

Lemma default_output_directory_witness :
  let res := ContouredVideoProduction disk flat_Canny demo_writer_opens
               "vid" demo_frames demo_masks 24%Z None true (mkWorld [] []) in
  let dir := "Videos/Contoured Videos" in
  let file := "Videos/Contoured Videos/Contoured_vid.mp4" in
  nth_error demo_frames 0 = Some "f0.jpg" /\
  disk "f0.jpg" = Some frame2x2 /\
  demo_writer_opens file (VideoWriter_fourcc "m" "p" "4" "v") 24%Z (2, 2)
    = true /\
  length demo_frames <= length demo_masks /\
  masks_fit disk demo_frames demo_masks /\
  In dir (paths (snd res)) /\
  made_dirs (trace (snd res)) = [dir] /\
  In "Videos" (paths (snd res)) /\
  Forall (fun wr => fst wr = file) (writers (trace (snd res))) /\
  writers (trace (snd res)) = [(file, (2, 2))] /\
  In file (paths (snd res)) /\
  fst res = inr tt /\
  map Some (written (trace (snd res))) =
    map (contoured disk flat_Canny demo_frames demo_masks 1%Z 256%Z)
        (filter (decodable disk demo_frames demo_masks)
                (seq 0 (length demo_frames))) /\
  releases (trace (snd res)) = 1.
Proof.
  cbv zeta.
  assert (Hlen : length demo_frames <= length demo_masks) by (simpl; lia).
  assert (Hfit : masks_fit disk demo_frames demo_masks) by solve_fit.
  destruct (default_output_directory disk flat_Canny demo_writer_opens
              flat_Canny_shape "vid" demo_frames demo_masks 24%Z true [])
    as (Hin & Hmd & Hpar & Hall & Hopen).
  destruct (Hopen "f0.jpg" frame2x2 eq_refl eq_refl) as (Hw & Hopened).
  destruct (Hopened eq_refl) as (Hfile & Hrun).
  destruct (Hrun Hlen Hfit) as (Hr & Hwn & Hrel).
  split; [reflexivity|]. split; [reflexivity|]. split; [reflexivity|].
  split; [exact Hlen|]. split; [exact Hfit|].
  split; [exact Hin|]. split; [exact Hmd|].
  split; [exact (Hpar eq_refl)|]. split; [exact Hall|].
  split; [exact Hw|]. split; [exact Hfile|].
  split; [exact Hr|]. split; [exact Hwn | exact Hrel].
Defined.

(** ** The window at work *)

Section WindowProperties.

Variable os_path_isdir : string -> bool.
Variable glob_glob : string -> list string.
Variable os_path_basename : string -> string.
Variable os_path_splitext : string -> string * string.
Variable int_of_string : string -> option Z.
Variable imread : string -> option image.
Variable Canny : image -> Z -> Z -> array2 Z.
Variable writer_opens : string -> Z -> Z -> nat * nat -> bool.

Hypothesis Canny_shape :
  forall m lo hi, shape (Canny m lo hi) = shape m.

Local Abbreviation pv :=
  (process_video os_path_isdir glob_glob os_path_basename os_path_splitext
     int_of_string imread Canny writer_opens).
Local Abbreviation name_of := (video_name_of os_path_basename os_path_splitext).
Local Abbreviation folder_of :=
  (video_folder_of os_path_basename os_path_splitext).
Local Abbreviation frames :=
  (frames_of glob_glob os_path_basename os_path_splitext).
Local Abbreviation masks :=
  (masks_of glob_glob os_path_basename os_path_splitext).
Local Abbreviation is_ready :=
  (ready os_path_isdir glob_glob os_path_basename os_path_splitext).
Local Abbreviation fps := (fps_of int_of_string).
Local Abbreviation wrun :=
  (window_run glob_glob os_path_basename os_path_splitext int_of_string
     imread Canny writer_opens).
Local Abbreviation wafter :=
  (window_after glob_glob os_path_basename os_path_splitext int_of_string
     imread Canny writer_opens).

Lemma process_video_started g ps :
is_ready g ->
pv g (mkWorld ps []) =
(fst (wrun g ps), (wafter g ps, snd (wrun g ps))).
Proof.
intros (Hin & Hout & Hdir & Hfr & Hma).
unfold process_video, window_after, window_run.
apply String.eqb_neq in Hin. apply String.eqb_neq in Hout.
rewrite Hin, Hout, Hdir. cbn [negb].
destruct (frames g) as [|pf rest] eqn:Efr; [contradiction|].
destruct (masks g) as [|pm rest'] eqn:Ema; [contradiction|].
destruct (fps g) as [n g1]. cbn [fst snd trace length skipn].
destruct (ContouredVideoProduction imread Canny writer_opens (name_of g)
            (pf :: rest) (pm :: rest') n (Some (output_video_dir g)) true
                (mkWorld ps []))
  as [[e|[]] w']; reflexivity.
Qed.

(** [process_video] starts no run unless a video and an output directory
    are selected, the workspace folder of the video exists and holds at
    least one frame and one mask.  Otherwise it shows exactly one message
    (a warning box or a log line) and returns: the disk is untouched, no
    image is read, and the progress bar stays as it was. *)
Theorem process_video_gates g w :
input_video_path g = EmptyString \/
output_video_dir g = EmptyString \/
os_path_isdir (video_folder_of os_path_basename os_path_splitext g)
  = false \/
frames_of glob_glob os_path_basename os_path_splitext g = [] \/
masks_of glob_glob os_path_basename os_path_splitext g = [] ->
let res :=
  process_video os_path_isdir glob_glob os_path_basename os_path_splitext
    int_of_string imread Canny writer_opens g w in
fst res = inr tt /\
snd (snd res) = w /\
progress_maximum (fst (snd res)) = progress_maximum g /\
progress_value (fst (snd res)) = progress_value g /\
length (warnings (fst (snd res))) + length (log_text (fst (snd res)))
  = S (length (warnings g) + length (log_text g)).
Proof.
intros Hgate res. unfold res, process_video.
destruct (String.eqb (input_video_path g) EmptyString) eqn:Ein.
{ cbn. rewrite length_app. cbn. repeat split; lia. }
destruct (String.eqb (output_video_dir g) EmptyString) eqn:Eout.
{ cbn. rewrite length_app. cbn. repeat split; lia. }
destruct (os_path_isdir (folder_of g)) eqn:Edir; cbn [negb].
2:{ cbn. rewrite length_app. cbn. repeat split; lia. }
destruct (frames g) as [|pf rest] eqn:Efr.
{ cbn. rewrite length_app. cbn. repeat split; lia. }
destruct (masks g) as [|pm rest'] eqn:Ema.
{ cbn. rewrite length_app. cbn. repeat split; lia. }
exfalso.
apply String.eqb_neq in Ein. apply String.eqb_neq in Eout.
destruct Hgate as [H | [H | [H | [H | H]]]];
  try contradiction; discriminate.
Qed.

Lemma last_cons_indep {A : Type} (l : list A) :
forall (x d d' : A), last (x :: l) d = last (x :: l) d'.
Proof.
induction l as [|y l IH]; intros x d d'; [reflexivity|].
change (last (y :: l) d = last (y :: l) d'). apply IH.
Qed.

Lemma fold_update_progress (l : list nat) :
forall g,
  progress_value (fold_left update_progress l g) = last l (progress_value g) /\
  progress_maximum (fold_left update_progress l g) = progress_maximum g /\
  log_text (fold_left update_progress l g) = log_text g /\
  warnings (fold_left update_progress l g) = warnings g.
Proof.
induction l as [|n l IH]; intros g; [repeat split|].
cbn [fold_left]. destruct (IH (update_progress g n)) as (Hv & Hm & Hl & Hw).
rewrite Hv, Hm, Hl, Hw. cbn [update_progress progress_value
  progress_maximum log_text warnings].
repeat split.
destruct l as [|m l]; [reflexivity|].
change (last (m :: l) n = last (m :: l) (progress_value g)).
apply last_cons_indep.
Qed.

Lemma last_in_or_default {A : Type} (l : list A) (d : A) :
last l d = d \/ In (last l d) l.
Proof.
induction l as [|x l IH]; [left; reflexivity|].
destruct l as [|y l]; [right; left; reflexivity|].
change (last (x :: y :: l) d) with (last (y :: l) d).
destruct IH as [H | H]; [left; exact H | right; right; exact H].
Qed.

(** The log once the run has been left: the start is logged, and the end
    when the run returned. *)
Lemma log_after_run g ps :
log_text (wafter g ps) =
log_text (snd (fps g))
++ [("[" ++ name_of g ++ "] Processing started...")%string]
++ match fst (wrun g ps) with
   | inr _ => [("[" ++ name_of g ++ "] Processing completed.")%string]
   | inl _ => []
   end.
Proof.
unfold window_after.
match goal with
| |- context [fold_left update_progress ?l ?g0] =>
    destruct (fold_update_progress l g0) as (_ & _ & Hl & _)
end.
destruct (fst (wrun g ps)); cbn [log log_text]; rewrite Hl;
  cbn [update_progress progress_config log log_text];
  rewrite <- ?app_assoc, ?app_nil_r; reflexivity.
Qed.

(** When [process_video] starts a run, the maximum of the progress bar is
    the number of frames and the bar never goes beyond it.  It is full at
    the end only if the last pair could be read, so a run whose last pair is
    skipped leaves the bar short of its maximum; and it is full whenever the
    writer was opened, the run ended normally and the last pair could be
    read. *)
Theorem progress_bar_after_run g ps :
is_ready g ->
let res := pv g (mkWorld ps []) in
let g' := fst (snd res) in
let n := length (frames g) in
progress_maximum g' = n /\
progress_value g' <= progress_maximum g' /\
(progress_value g' = progress_maximum g' ->
 decodable imread (frames g) (masks g) (n - 1) = true) /\
(fst res = inr tt ->
 writers (trace (snd (snd res))) <> [] ->
 decodable imread (frames g) (masks g) (n - 1) = true ->
 progress_value g' = progress_maximum g').
Proof.
intros Hready res g' n.
assert (Hn : 0 < n).
{ destruct Hready as (_ & _ & _ & Hfr & _). unfold n.
  destruct (frames g); [contradiction | simpl; lia]. }
unfold g', res. rewrite (process_video_started g ps Hready).
cbn [fst snd].
destruct (run_prefix imread Canny writer_opens (name_of g) (frames g) (masks g)
            (fst (fps g)) (Some (output_video_dir g)) true ps)
  as (k & Hk & Hp & _ & _ & Hfull).
fold (wrun g ps) in Hp, Hfull. fold n in Hk, Hfull.
set (l := progress_values (trace (snd (wrun g ps)))) in *.
set (g3 := update_progress
             (progress_config
                (log (snd (fps g))
                     ("[" ++ name_of g ++ "] Processing started...")%string)
                n) 0).
assert (Hafter : progress_value (wafter g ps) = last l 0 /\
                 progress_maximum (wafter g ps) = n).
{ unfold window_after. fold l. fold n. fold g3.
  destruct (fold_update_progress l g3) as (Hv & Hm & _ & _).
  destruct (fst (wrun g ps)); cbn; rewrite ?Hv, ?Hm; split;
    reflexivity. }
destruct Hafter as [Hv Hm]. rewrite Hv, Hm.
assert (Hall : forall x, In x l ->
          exists i, x = i + 1 /\ i < k /\
                    decodable imread (frames g) (masks g) i = true).
{ intros x Hx. rewrite Hp in Hx.
  apply in_map_iff in Hx. destruct Hx as (i & <- & Hi).
  apply filter_In in Hi. destruct Hi as [Hi Hd].
  apply in_seq in Hi. exists i. repeat split; [lia | exact Hd]. }
split; [reflexivity|]. split; [|split].
- destruct (last_in_or_default l 0) as [H | H]; [lia|].
  destruct (Hall _ H) as (i & Hi & Hlt & _). lia.
- intros Hfullbar.
  destruct (last_in_or_default l 0) as [H | H]; [lia|].
  destruct (Hall _ H) as (i & Hi & Hlt & Hd).
  replace (n - 1) with i by lia. exact Hd.
- intros Hr Hw Hd.
  rewrite (Hfull Hr Hw) in Hp.
  replace n with ((n - 1) + 1) in Hp at 1 by lia.
  rewrite seq_app, filter_app, map_app in Hp. cbn [seq filter] in Hp.
  rewrite Nat.add_0_l, Hd in Hp. cbn [map] in Hp.
  rewrite Hp, last_last. lia.
Qed.

(** When the workspace holds fewer masks than frames, the out-of-range
    fault of the run leaves [process_video] as well: "Processing
    completed." is not logged, the log ends with "Processing started...",
    and the progress bar stays short of its maximum. *)
Theorem process_video_short_masks g ps p0 f0 :
is_ready g ->
length (masks g) < length (frames g) ->
nth_error (frames g) 0 = Some p0 ->
imread p0 = Some f0 ->
masks_fit imread (frames g) (masks g) ->
let res := pv g (mkWorld ps []) in
let g' := fst (snd res) in
fst res = inl (IndexError (length (masks g))) /\
log_text g' =
  log_text (snd (fps g))
  ++ [("[" ++ name_of g ++ "] Processing started...")%string] /\
progress_value g' < progress_maximum g'.
Proof.
intros Hready Hlen Hp0 H0 Hfit res g'.
pose proof (run_short_masks imread Canny writer_opens Canny_shape (name_of g)
    (frames g)
              (masks g) (fst (fps g)) (Some (output_video_dir g)) true ps
              p0 f0 Hlen Hp0 H0 Hfit) as Hrun.
fold (wrun g ps) in Hrun.
destruct (run_prefix imread Canny writer_opens (name_of g) (frames g) (masks g)
            (fst (fps g)) (Some (output_video_dir g)) true ps)
  as (k & Hk & Hp & _).
fold (wrun g ps) in Hp.
unfold g', res. rewrite (process_video_started g ps Hready).
cbn [fst snd]. split; [exact Hrun|].
unfold window_after. rewrite Hrun.
set (l := progress_values (trace (snd (wrun g ps)))) in *.
match goal with
| |- context [fold_left update_progress l ?g0] =>
    destruct (fold_update_progress l g0) as (Hv & Hm & Hl & _)
end.
rewrite Hv, Hm, Hl. cbn. split; [reflexivity|].
destruct (last_in_or_default l 0) as [H | H]; [lia|].
assert (H' : In (last l 0)
               (map (fun i => i + 1)
                    (filter (decodable imread (frames g) (masks g))
                            (seq 0 k))))
  by (rewrite <- Hp; exact H).
apply in_map_iff in H'. destruct H' as (i & Hi & Hin).
apply filter_In in Hin. destruct Hin as [Hin Hd].
apply in_seq in Hin.
assert (Him : i < length (masks g)).
{ apply nth_error_Some. unfold decodable in Hd.
  destruct (nth_error (frames g) i); [|discriminate].
  destruct (nth_error (masks g) i); [discriminate | discriminate]. }
lia.
Qed.

(** The frame rate of a run started from the window is the integer in the
    FPS entry, whatever it is (zero and negative values included); when the
    entry is no integer, the rate is 30 and the fallback is logged before
    the run starts.  As soon as the first frame can be read the video
    writer is opened with that rate, for "Contoured_<name>.mp4" in the
    selected directory. *)
Theorem process_video_frame_rate g ps p0 f0 :
is_ready g ->
nth_error (frames g) 0 = Some p0 ->
imread p0 = Some f0 ->
let res := pv g (mkWorld ps []) in
let rate :=
  match int_of_string (fps_entry g) with
  | Some n => n
  | None => 30%Z
  end in
In (EvVideoWriter
      (os_path_join (output_video_dir g)
         ("Contoured_" ++ name_of g ++ ".mp4")%string)
      (VideoWriter_fourcc "m" "p" "4" "v") rate
      (snd (shape f0), fst (shape f0)))
   (trace (snd (snd res))) /\
(int_of_string (fps_entry g) = None ->
 In "FPS value is invalid. Using default FPS = 30."
    (log_text (fst (snd res)))).
Proof.
intros Hready Hp0 H0 res rate.
unfold res. rewrite (process_video_started g ps Hready). cbn [fst snd].
split.
- unfold window_run.
  rewrite (run_streaming imread Canny writer_opens _ _ _ _ _ _ _ p0 f0 Hp0 H0).
  cbn [snd trace]. apply in_or_app. right. right. left.
  unfold output_path_of, output_dir_of, rate, fps_of.
  destruct (int_of_string (fps_entry g)); reflexivity.
- intros Hnone. rewrite log_after_run.
  apply in_or_app. left.
  unfold fps_of. rewrite Hnone. cbn [snd log log_text].
  apply in_or_app. right. left. reflexivity.
Qed.

(** When the first frame of the workspace cannot be read, the run writes
    no video, yet [process_video] goes on as after any run that returned:
    it logs "Processing completed.".  No video writer has been opened, no
    output file created, and the progress bar is at zero. *)
Theorem process_video_unreadable_first_frame g ps p0 :
is_ready g ->
nth_error (frames g) 0 = Some p0 ->
imread p0 = None ->
let res := pv g (mkWorld ps []) in
let g' := fst (snd res) in
let w' := snd (snd res) in
fst res = inr tt /\
log_text g' =
  log_text (snd (fps g))
  ++ [("[" ++ name_of g ++ "] Processing started...")%string;
      ("[" ++ name_of g ++ "] Processing completed.")%string] /\
writers (trace w') = [] /\
written (trace w') = [] /\
progress_value g' = 0 /\
(In (output_path_of (Some (output_video_dir g)) (name_of g)) (paths w') ->
 In (output_path_of (Some (output_video_dir g)) (name_of g)) ps).
Proof.
intros Hready Hp0 H0 res g' w'.
destruct (first_frame (frames g) p0 Hp0) as [rest Hfr].
assert (Hrun : wrun g ps =
  (inr tt,
   mkWorld (paths (after_makedirs (output_dir_of (Some (output_video_dir g)))
                     (mkWorld ps [])))
           (trace (after_makedirs (output_dir_of (Some (output_video_dir g)))
                     (mkWorld ps []))
            ++ [EvImread p0; EvPrint (FailedFirstFrame (name_of g) p0)]))).
{ unfold window_run. rewrite Hfr.
  apply run_first_unreadable. exact H0. }
assert (Hprog : progress_values (trace (snd (wrun g ps))) = []).
{ rewrite Hrun. cbn [snd trace]. unfold progress_values.
  rewrite flat_map_app, flat_map_after_makedirs by reflexivity.
  reflexivity. }
unfold g', w', res. rewrite (process_video_started g ps Hready).
cbn [fst snd].
split; [rewrite Hrun; reflexivity|].
split; [rewrite log_after_run, Hrun; reflexivity|].
split.
{ rewrite Hrun. cbn [snd trace]. unfold writers.
  rewrite flat_map_app, flat_map_after_makedirs by reflexivity.
  reflexivity. }
split.
{ rewrite Hrun. cbn [snd trace]. unfold written.
  rewrite flat_map_app, flat_map_after_makedirs by reflexivity.
  reflexivity. }
split.
{ unfold window_after. rewrite Hprog. cbn [fold_left].
  destruct (fst (wrun g ps)); reflexivity. }
rewrite Hrun. cbn [snd paths]. intros H.
apply (output_path_after_makedirs (Some (output_video_dir g)) (name_of g))
  in H.
exact H.
Qed.

(** [process_video] does not depend on the order in which the system lists
    the files of the workspace: with another listing of the same files for
    every pattern it does the same, call for call. *)
Theorem process_video_order_independent (glob_glob' : string -> list string)
  g w :
(forall pattern, Permutation (glob_glob pattern) (glob_glob' pattern)) ->
pv g w =
process_video os_path_isdir glob_glob' os_path_basename os_path_splitext
  int_of_string imread Canny writer_opens g w.
Proof.
intros Hperm. unfold process_video.
assert (Hf : frames g =
             frames_of glob_glob' os_path_basename os_path_splitext g)
  by (unfold frames_of; apply sorted_perm_eq, Hperm).
assert (Hm : masks g =
             masks_of glob_glob' os_path_basename os_path_splitext g)
  by (unfold masks_of; apply sorted_perm_eq, Hperm).
rewrite Hf, Hm. reflexivity.
Qed.

End WindowProperties.

(** ** The further theorems at work *)

Lemma overlay_without_edges_witness :
  overlay frame2x2 (flat_Canny mask2x2 1%Z 256%Z) = inr frame2x2.
Proof.
  apply (overlay_without_edges frame2x2 (flat_Canny mask2x2 1%Z 256%Z)).
  - reflexivity.
  - unfold rectangular. repeat constructor.
  - unfold uint8_image, frame2x2, uint8_pixel, uint8.
    repeat constructor; lia.
  - intros r c.
    do 3 (try (destruct r as [|r])); do 3 (try (destruct c as [|c]));
      reflexivity.
Defined.


Lemma misfit_mask_aborts_witness :
  let frames := ["f0.jpg"; "f1.jpg"; "f2.jpg"] in
  let masks := ["m0.png"; "big.png"; "m2.png"] in
  let res := ContouredVideoProduction misfit_disk flat_Canny demo_writer_opens
               "vid" frames masks 24%Z (Some "out") true (mkWorld [] []) in
  broadcastable (shape mask3x3) (shape frame2x2) = false /\
  fst res = inl ValueError /\
  map Some (written (trace (snd res))) =
    map (contoured misfit_disk flat_Canny frames masks 1%Z 256%Z)
        (filter (decodable misfit_disk frames masks) (seq 0 1)) /\
  releases (trace (snd res)) = 0.
Proof.
  cbv zeta. split; [reflexivity|].
  apply (misfit_mask_aborts misfit_disk flat_Canny demo_writer_opens
      flat_Canny_shape "vid"
           ["f0.jpg"; "f1.jpg"; "f2.jpg"] ["m0.png"; "big.png"; "m2.png"]
           24%Z (Some "out") true [] "f0.jpg" frame2x2 1 "f1.jpg" "big.png"
           frame2x2 mask3x3); try reflexivity.
  intros j pf' pm' f' m' Hj Epf Epm Ef Em.
  destruct j as [|j]; [|lia].
  simpl in Epf, Epm. inversion Epf. inversion Epm. subst.
  vm_compute in Ef, Em. inversion Ef. inversion Em. reflexivity.
Defined.

Lemma only_directory_and_file_created_witness :
  let res := ContouredVideoProduction disk flat_Canny demo_writer_opens
               "vid" demo_frames demo_masks 24%Z None true
               (mkWorld ["home"] []) in
  paths (snd res) =
    ["home"; "Videos"; "Videos/Contoured Videos";
     "Videos/Contoured Videos/Contoured_vid.mp4"] /\
  In "Videos" (paths (snd res)) /\
  (In "Videos" ["home"] \/
   (exists rest, output_dir_of None = ("Videos" ++ rest)%string) \/
   "Videos" = output_path_of None "vid").
Proof.
  cbv zeta.
  assert (Hin : In "Videos"
            (paths (snd (ContouredVideoProduction disk flat_Canny
                           demo_writer_opens "vid" demo_frames demo_masks
                           24%Z None true (mkWorld ["home"] []))))).
  { vm_compute. right. left. reflexivity. }
  split; [reflexivity|]. split; [exact Hin|].
  exact (only_directory_and_file_created disk flat_Canny demo_writer_opens
           "vid" demo_frames demo_masks 24%Z None true ["home"] "Videos"
           Hin).
Defined.

Lemma process_video_gates_witness :
  let res := process_video demo_isdir demo_glob demo_basename demo_splitext
               demo_int disk flat_Canny demo_writer_opens CCMGUI_init (mkWorld
                   [] []) in
  input_video_path CCMGUI_init = EmptyString /\
  fst res = inr tt /\
  snd (snd res) = mkWorld [] [] /\
  progress_maximum (fst (snd res)) = progress_maximum CCMGUI_init /\
  progress_value (fst (snd res)) = progress_value CCMGUI_init /\
  length (warnings (fst (snd res))) + length (log_text (fst (snd res)))
    = S (length (warnings CCMGUI_init) + length (log_text CCMGUI_init)).
Proof.
  cbv zeta. split; [reflexivity|].
  apply (process_video_gates demo_isdir demo_glob demo_basename demo_splitext
           demo_int disk flat_Canny demo_writer_opens CCMGUI_init (mkWorld []
               [])).
  left. reflexivity.
Defined.

(** Settles [ready] on an explicit window. *)
Ltac solve_ready :=
  unfold ready; repeat split; try reflexivity;
  try (vm_compute; discriminate).

Lemma progress_bar_after_run_witness :
  let res := process_video demo_isdir demo_glob demo_basename demo_splitext
               demo_int corrupt_disk flat_Canny demo_writer_opens demo_window
                   (mkWorld [] []) in
  let g' := fst (snd res) in
  let n := length (frames_of demo_glob demo_basename demo_splitext
                     demo_window) in
  ready demo_isdir demo_glob demo_basename demo_splitext demo_window /\
  progress_maximum g' = n /\
  progress_value g' <= progress_maximum g' /\
  (progress_value g' = progress_maximum g' ->
   decodable corrupt_disk
     (frames_of demo_glob demo_basename demo_splitext demo_window)
     (masks_of demo_glob demo_basename demo_splitext demo_window) (n - 1)
   = true) /\
  (fst res = inr tt ->
   writers (trace (snd (snd res))) <> [] ->
   decodable corrupt_disk
     (frames_of demo_glob demo_basename demo_splitext demo_window)
     (masks_of demo_glob demo_basename demo_splitext demo_window) (n - 1)
   = true ->
   progress_value g' = progress_maximum g').
Proof.
  cbv zeta.
  assert (Hready : ready demo_isdir demo_glob demo_basename demo_splitext
                     demo_window) by solve_ready.
  split; [exact Hready|].
  exact (progress_bar_after_run demo_isdir demo_glob demo_basename
           demo_splitext demo_int corrupt_disk flat_Canny demo_writer_opens
               demo_window []
           Hready).
Defined.

Lemma process_video_short_masks_witness :
  let res := process_video demo_isdir short_glob demo_basename demo_splitext
               demo_int disk flat_Canny demo_writer_opens demo_window (mkWorld
                   [] []) in
  let g' := fst (snd res) in
  ready demo_isdir short_glob demo_basename demo_splitext demo_window /\
  fst res =
    inl (IndexError
           (length (masks_of short_glob demo_basename demo_splitext
                      demo_window))) /\
  log_text g' =
    log_text (snd (fps_of demo_int demo_window))
    ++ [("[" ++ video_name_of demo_basename demo_splitext demo_window
             ++ "] Processing started...")%string] /\
  progress_value g' < progress_maximum g'.
Proof.
  cbv zeta.
  assert (Hready : ready demo_isdir short_glob demo_basename demo_splitext
                     demo_window) by solve_ready.
  split; [exact Hready|].
  apply (process_video_short_masks demo_isdir short_glob demo_basename
           demo_splitext demo_int disk flat_Canny demo_writer_opens
               flat_Canny_shape
           demo_window [] "f0.jpg" frame2x2 Hready).
  - vm_compute. lia.
  - reflexivity.
  - reflexivity.
  - intros i pf pm f m Epf Epm Ef Em.
    vm_compute in Epf, Epm.
    destruct i as [|i]; [|destruct i; discriminate Epm].
    inversion Epf. inversion Epm. subst.
    vm_compute in Ef, Em. inversion Ef. inversion Em. reflexivity.
Defined.

Lemma process_video_frame_rate_witness :
  let res := process_video demo_isdir demo_glob demo_basename demo_splitext
               demo_int disk flat_Canny demo_writer_opens demo_window_bad_fps
                   (mkWorld [] []) in
  ready demo_isdir demo_glob demo_basename demo_splitext demo_window_bad_fps /\
  demo_int (fps_entry demo_window_bad_fps) = None /\
  In (EvVideoWriter
        (os_path_join (output_video_dir demo_window_bad_fps)
           ("Contoured_"
            ++ video_name_of demo_basename demo_splitext demo_window_bad_fps
            ++ ".mp4")%string)
        (VideoWriter_fourcc "m" "p" "4" "v") 30%Z
        (snd (shape frame2x2), fst (shape frame2x2)))
     (trace (snd (snd res))) /\
  In "FPS value is invalid. Using default FPS = 30."
     (log_text (fst (snd res))).
Proof.
  cbv zeta.
  assert (Hready : ready demo_isdir demo_glob demo_basename demo_splitext
                     demo_window_bad_fps) by solve_ready.
  split; [exact Hready|]. split; [reflexivity|].
  destruct (process_video_frame_rate demo_isdir demo_glob demo_basename
              demo_splitext demo_int disk flat_Canny demo_writer_opens
                  demo_window_bad_fps []
              "f0.jpg" frame2x2 Hready eq_refl eq_refl) as [Hopen Hlog].
  split; [exact Hopen|]. apply Hlog. reflexivity.
Defined.

Lemma process_video_unreadable_first_frame_witness :
  let res := process_video demo_isdir demo_glob demo_basename demo_splitext
               demo_int headless_disk flat_Canny demo_writer_opens demo_window
                   (mkWorld [] []) in
  let g' := fst (snd res) in
  let w' := snd (snd res) in
  ready demo_isdir demo_glob demo_basename demo_splitext demo_window /\
  headless_disk "f0.jpg" = None /\
  fst res = inr tt /\
  log_text g' =
    log_text (snd (fps_of demo_int demo_window))
    ++ [("[" ++ video_name_of demo_basename demo_splitext demo_window
             ++ "] Processing started...")%string;
        ("[" ++ video_name_of demo_basename demo_splitext demo_window
             ++ "] Processing completed.")%string] /\
  writers (trace w') = [] /\
  written (trace w') = [] /\
  progress_value g' = 0 /\
  (In (output_path_of (Some (output_video_dir demo_window))
         (video_name_of demo_basename demo_splitext demo_window)) (paths w') ->
   In (output_path_of (Some (output_video_dir demo_window))
         (video_name_of demo_basename demo_splitext demo_window)) []).
Proof.
  cbv zeta.
  assert (Hready : ready demo_isdir demo_glob demo_basename demo_splitext
                     demo_window) by solve_ready.
  split; [exact Hready|]. split; [reflexivity|].
  exact (process_video_unreadable_first_frame demo_isdir demo_glob
           demo_basename demo_splitext demo_int headless_disk flat_Canny
               demo_writer_opens
           demo_window [] "f0.jpg" Hready eq_refl eq_refl).
Defined.

Lemma process_video_order_independent_witness :
  (forall pattern,
     Permutation (demo_glob pattern) (rev (demo_glob pattern))) /\
  process_video demo_isdir demo_glob demo_basename demo_splitext demo_int
    disk flat_Canny demo_writer_opens demo_window (mkWorld [] []) =
  process_video demo_isdir (fun pattern => rev (demo_glob pattern))
    demo_basename demo_splitext demo_int disk flat_Canny demo_writer_opens
        demo_window
    (mkWorld [] []).
Proof.
  assert (Hperm : forall pattern,
            Permutation (demo_glob pattern) (rev (demo_glob pattern)))
    by (intros pattern; apply Permutation_rev).
  split; [exact Hperm|].
  exact (process_video_order_independent demo_isdir demo_glob demo_basename
           demo_splitext demo_int disk flat_Canny demo_writer_opens
           (fun pattern => rev (demo_glob pattern)) demo_window
           (mkWorld [] []) Hperm).
Defined.

Lemma video_saved_reported_witness :
  let res := ContouredVideoProduction maskless_disk flat_Canny
      demo_writer_opens "vid"
               demo_frames demo_masks 24%Z (Some "out") true (mkWorld [] []) in
  skipped (trace (snd res)) = seq 0 (length demo_frames) /\
  demo_frames <> [] /\
  written (trace (snd res)) = [] /\
  saved (trace (snd res)) = [("vid", output_path_of (Some "out") "vid")].
Proof.
  cbv zeta.
  assert (Hs : skipped
                 (trace (snd (ContouredVideoProduction maskless_disk
                                flat_Canny demo_writer_opens "vid" demo_frames
                                    demo_masks 24%Z
                                (Some "out") true (mkWorld [] [])))) =
               seq 0 (length demo_frames)) by reflexivity.
  assert (Hne : demo_frames <> []) by discriminate.
  split; [exact Hs|]. split; [exact Hne|].
  exact (proj2 (proj2 (video_saved_reported maskless_disk flat_Canny
      demo_writer_opens "vid"
                         demo_frames demo_masks 24%Z (Some "out") true []))
           Hs Hne).
Defined.
